(** * Football player tracker: cache, season codec and aggregation engine

    A shallow embedding of the TypeScript sources
    ([src/utils.ts], [src/db.ts], [src/api.ts], [src/types.ts] and
    [src/components/Tracker.tsx]) together with the properties of the
    specification that are checked against them.

    Conventions of the embedding.
    - A JavaScript [number] holding an integer is a [Z]; the embedding is
      exact on the safe-integer range, where ids, weeks, years and
      millisecond timestamps live.  [NaN] results are [None].
    - A JavaScript string is a [string] whose characters are code units
      below 256.
    - A [Set<number>] is an insertion-ordered list without repetition, a
      [Map<number, V>] an insertion-ordered association list, a plain
      object used as a dictionary a [gmap string V].
    - An object whose identity matters (a dependency of [useEffect]) is a
      pair of a reference and its contents.
    - Asynchronous code runs in a state-and-error monad over the React
      state of the component and the outside world (IndexedDB contents and
      the history of requests); a rejected promise is [Err]. *)

From Stdlib Require Import ZArith String Ascii List Decimal DecimalString DecimalZ.
From Stdlib Require Import Hexadecimal HexadecimalZ Sorted Permutation Lia.
From Stdlib Require Import OrderedTypeEx.
From stdpp Require Import gmap strings list fin_maps.
Import ListNotations.

Local Open Scope Z_scope.
Local Open Scope string_scope.

(** ** JavaScript strings and numbers *)

Module Js.

(** [WhiteSpace] and [LineTerminator] code units below 256: TAB, LF, VT,
    FF, CR, SP and NBSP. *)
Definition is_white_space (c : ascii) : bool :=
  existsb (N.eqb (N_of_ascii c)) [9; 10; 11; 12; 13; 32; 160]%N.

Fixpoint trimStart (s : string) : string :=
  match s with
  | EmptyString => EmptyString
  | String c s' => if is_white_space c then trimStart s' else s
  end.

Fixpoint trimEnd (s : string) : string :=
  match s with
  | EmptyString => EmptyString
  | String c s' =>
      match trimEnd s' with
      | EmptyString => if is_white_space c then EmptyString else String c EmptyString
      | r => String c r
      end
  end.

(** A string made of white space only (the empty string included). *)
Fixpoint whitespace_only (s : string) : bool :=
  match s with
  | EmptyString => true
  | String c s' => is_white_space c && whitespace_only s'
  end.

(** [String.prototype.trim] *)
Definition trim (s : string) : string := trimEnd (trimStart s).

(** Truthiness of a string and of a number. *)
Definition truthy_str (s : string) : bool :=
  match s with EmptyString => false | _ => true end.

Definition truthy_num (n : Z) : bool := negb (Z.eqb n 0).

Definition str_eqb (a b : string) : bool := bool_decide (a = b).

(** [Number.prototype.toString] on an integer: decimal digits, with a
    leading minus sign for a negative one. *)
Definition toString (n : Z) : string := NilEmpty.string_of_int (Z.to_int n).

(** The longest prefix of decimal digits of a string. *)
Fixpoint take_dec (s : string) : Decimal.uint :=
  match s with
  | EmptyString => Decimal.Nil
  | String c s' =>
      match c with
      | "0"%char => Decimal.D0 (take_dec s')
      | "1"%char => Decimal.D1 (take_dec s')
      | "2"%char => Decimal.D2 (take_dec s')
      | "3"%char => Decimal.D3 (take_dec s')
      | "4"%char => Decimal.D4 (take_dec s')
      | "5"%char => Decimal.D5 (take_dec s')
      | "6"%char => Decimal.D6 (take_dec s')
      | "7"%char => Decimal.D7 (take_dec s')
      | "8"%char => Decimal.D8 (take_dec s')
      | "9"%char => Decimal.D9 (take_dec s')
      | _ => Decimal.Nil
      end
  end.

(** The longest prefix of hexadecimal digits of a string. *)
Fixpoint take_hex (s : string) : Hexadecimal.uint :=
  match s with
  | EmptyString => Hexadecimal.Nil
  | String c s' =>
      match c with
      | "0"%char => Hexadecimal.D0 (take_hex s')
      | "1"%char => Hexadecimal.D1 (take_hex s')
      | "2"%char => Hexadecimal.D2 (take_hex s')
      | "3"%char => Hexadecimal.D3 (take_hex s')
      | "4"%char => Hexadecimal.D4 (take_hex s')
      | "5"%char => Hexadecimal.D5 (take_hex s')
      | "6"%char => Hexadecimal.D6 (take_hex s')
      | "7"%char => Hexadecimal.D7 (take_hex s')
      | "8"%char => Hexadecimal.D8 (take_hex s')
      | "9"%char => Hexadecimal.D9 (take_hex s')
      | "a"%char | "A"%char => Hexadecimal.Da (take_hex s')
      | "b"%char | "B"%char => Hexadecimal.Db (take_hex s')
      | "c"%char | "C"%char => Hexadecimal.Dc (take_hex s')
      | "d"%char | "D"%char => Hexadecimal.Dd (take_hex s')
      | "e"%char | "E"%char => Hexadecimal.De (take_hex s')
      | "f"%char | "F"%char => Hexadecimal.Df (take_hex s')
      | _ => Hexadecimal.Nil
      end
  end.

(** The digits of [parseInt] once the sign is gone: a [0x] or [0X]
    prefix selects radix 16, otherwise the radix is 10; no digit at all
    is [NaN]. *)
Definition parse_unsigned (s : string) : option Z :=
  match s with
  | String "0"%char (String ("x"%char | "X"%char) s') =>
      match take_hex s' with
      | Hexadecimal.Nil => None
      | d => Some (Z.of_hex_uint d)
      end
  | _ =>
      match take_dec s with
      | Decimal.Nil => None
      | d => Some (Z.of_uint d)
      end
  end.

(** [parseInt(s)] without a radix argument. *)
Definition parseInt (s : string) : option Z :=
  match trimStart s with
  | String "-"%char s' => Z.opp <$> parse_unsigned s'
  | String "+"%char s' => parse_unsigned s'
  | s' => parse_unsigned s'
  end.

End Js.

(** ** [src/utils.ts]: season helpers *)





(** ** [src/types.ts] *)

(** [key: string | number] *)
Inductive Key : Type :=
| KStr (s : string)
| KNum (n : Z).

Record CacheItem (T : Type) : Type := mkCacheItem {
  key : Key;
  data : T;
  timestamp : Z
}.
Arguments mkCacheItem {T} _ _ _.
Arguments key {T} _.
Arguments data {T} _.
Arguments timestamp {T} _.

Record Club : Type := mkClub { club_id : Z; club_name : string }.

Record Competition : Type := mkCompetition { comp_id : Z; comp_name : string }.

Record Team : Type := mkTeam {
  team_id : Z;
  team_name : string;
  clubId : Z;
  clubName : string;
  competitions : list Competition;
  ageCategory : string;
  genre : string
}.

Record Player : Type := mkPlayer {
  personId : Z;
  firstName : string;
  lastName : string
}.

(** One side of a match: [{ id; name; players }]. *)
Record Side : Type := mkSide {
  side_id : Z;
  side_name : string;
  players_of : list Player
}.

Record Match : Type := mkMatch {
  match_id : Z;
  week : Z;
  homeTeam : Side;
  awayTeam : Side
}.

Record PlayerUsageData : Type := mkUsage {
  players : gmap string string;
  weeks : list string;
  usage : gmap string (gmap string string)
}.

(** ** [src/db.ts]: cache validity *)

Definition CACHE_DURATION_MS : Z := 60 * 60 * 1000.

(** [isCacheValid(item)], with [now] the value [Date.now()] returns in the
    call; a missing item is [null]. *)
Definition isCacheValid {T : Type} (now : Z) (item : option (CacheItem T)) : bool :=
  match item with
  | Some it => Z.ltb (now - timestamp it) CACHE_DURATION_MS
  | None => false
  end.

(** ** Insertion-ordered containers *)

(** [Set<number>]: elements in insertion order, without repetition. *)
Module JsSet.

Definition has (x : Z) (s : list Z) : bool := existsb (Z.eqb x) s.

Definition add (x : Z) (s : list Z) : list Z :=
  if has x s then s else s ++ [x].

Definition delete (x : Z) (s : list Z) : list Z :=
  List.filter (fun y => negb (Z.eqb x y)) s.

(** [new Set(iterable)] *)
Definition of_list (l : list Z) : list Z :=
  fold_left (fun s x => add x s) l [].

Definition size (s : list Z) : Z := Z.of_nat (length s).

End JsSet.

(** [Map<number, V>]: [set] on a key already present replaces its value
    and keeps its position; a new key goes last. *)
Module JsMap.

Fixpoint set {V : Type} (k : Z) (v : V) (m : list (Z * V)) : list (Z * V) :=
  match m with
  | [] => [(k, v)]
  | (k', v') :: m' =>
      if Z.eqb k k' then (k, v) :: m' else (k', v') :: set k v m'
  end.

Definition has {V : Type} (k : Z) (m : list (Z * V)) : bool :=
  existsb (fun e => Z.eqb k (fst e)) m.

Fixpoint get {V : Type} (k : Z) (m : list (Z * V)) : option V :=
  match m with
  | [] => None
  | (k', v') :: m' => if Z.eqb k k' then Some v' else get k m'
  end.

Definition keys {V : Type} (m : list (Z * V)) : list Z := map fst m.

Definition values {V : Type} (m : list (Z * V)) : list V := map snd m.

End JsMap.

(** ** Club search: parsing the remote answer ([searchForClubs], lines 67-81) *)

Record RawClubData : Type := mkRaw { value : Z; label : string }.

(** [club.value && club.label && club.label.trim() !== ''] *)
Definition club_ok (club : RawClubData) : bool :=
  Js.truthy_num (value club)
  && Js.truthy_str (label club)
  && negb (Js.str_eqb (Js.trim (label club)) "").

Definition uniqueClubs (rawData : list RawClubData) : list (Z * RawClubData) :=
  fold_left
    (fun m club => if club_ok club then JsMap.set (value club) club m else m)
    rawData [].

Definition parseClubs (rawData : list RawClubData) : list Club :=
  map (fun club => mkClub (value club) (label club))
      (JsMap.values (uniqueClubs rawData)).

(** ** The outside world *)

(** A settled promise: fulfilled with a value or rejected with the message
    of the error. *)
Inductive result (A : Type) : Type :=
| Ok (a : A)
| Err (msg : string).
Arguments Ok {A} _.
Arguments Err {A} _.

Definition is_err {A : Type} (r : result A) : bool :=
  match r with Ok _ => false | Err _ => true end.

Record Request : Type := mkRequest {
  url : string;
  method : string;
  headers : list (string * string);
  body : list (string * string)
}.

(** What [fetch] resolves to: [ok], [status] and what [json()] settles to. *)
Record Resp (T : Type) : Type := mkResp {
  ok : bool;
  status : Z;
  json_body : result T
}.
Arguments mkResp {T} _ _ _.
Arguments ok {T} _.
Arguments status {T} _.
Arguments json_body {T} _.

(** The outcome of [fetch]: the promise rejects on a transport failure and
    resolves to a response otherwise, whatever its status. *)
Inductive Outcome (T : Type) : Type :=
| NetworkError (msg : string)
| Answer (r : Resp T).
Arguments NetworkError {T} _.
Arguments Answer {T} _.

(** [{ id }]-bearing match stub of a match list. *)
Record MatchStub : Type := mkStub { stub_id : Z }.

Inductive Event : Type :=
| EvActivity
| EvDbGet (store : string) (k : Key)
| EvDbPut (store : string) (k : Key)
| EvFetch (req : Request).

#[global] Instance Key_eq_dec : EqDecision Key.
Proof. solve_decision. Defined.

#[global] Instance Key_countable : Countable Key.
Proof.
  refine (inj_countable'
            (fun k => match k with KStr s => inl s | KNum n => inr n end)
            (fun x => match x with inl s => KStr s | inr n => KNum n end) _).
  intros []; reflexivity.
Defined.

(** The four object stores [openDB] creates, each keyed by [key]. *)
Record DB : Type := mkDB {
  club_search : gmap Key (CacheItem (list Club));
  teams : gmap Key (CacheItem (list Team));
  match_lists : gmap Key (CacheItem (list MatchStub));
  match_details : gmap Key (CacheItem Match)
}.

(** An object store as [getFromDB] and [setToDB] name it. *)
Record Store (T : Type) : Type := mkStore {
  store_name : string;
  store_get : DB -> gmap Key (CacheItem T);
  store_set : gmap Key (CacheItem T) -> DB -> DB
}.
Arguments store_name {T} _.
Arguments store_get {T} _ _.
Arguments store_set {T} _ _ _.

Definition club_search_store : Store (list Club) :=
  mkStore _ "club-search" club_search
    (fun m d => mkDB m (teams d) (match_lists d) (match_details d)).

Definition teams_store : Store (list Team) :=
  mkStore _ "teams" teams
    (fun m d => mkDB (club_search d) m (match_lists d) (match_details d)).

Definition match_lists_store : Store (list MatchStub) :=
  mkStore _ "match-lists" match_lists
    (fun m d => mkDB (club_search d) (teams d) m (match_details d)).

Definition match_details_store : Store Match :=
  mkStore _ "match-details" match_details
    (fun m d => mkDB (club_search d) (teams d) (match_lists d) m).

(** The environment answers as a function of the history of requests so
    far (most recent first): the clock read by [Date.now()], whether an
    IndexedDB request fails, what the remote answers to each request, and
    the order in which concurrent promises settle. *)
Record Env : Type := mkEnv {
  clock : list Event -> Z;
  db_fault : list Event -> option string;
  net_clubs : list Event -> Request -> Outcome (list RawClubData);
  net_teams : list Event -> Request -> Outcome (list Team);
  net_matches : list Event -> Request -> Outcome (list MatchStub);
  net_match : list Event -> Request -> Outcome Match;
  settle_rank : list Event -> nat -> nat
}.

Record World : Type := mkWorld {
  db : DB;
  history : list Event
}.

(** ** The state of the [Tracker] component *)

(** An object with an identity: [useEffect] compares dependencies with
    [Object.is]. *)
Record Obj (A : Type) : Type := mkObj { ref : nat; val : A }.
Arguments mkObj {A} _ _.
Arguments ref {A} _.
Arguments val {A} _.

Record State : Type := mkState {
  loading : gmap string bool;
  error : option string;
  clubQuery : string;
  seasonId : string;
  clubs : list Club;
  selectedClub : option (Obj Club);
  allTeams : list Team;
  genreFilter : string;
  ageFilter : string;
  selectedTeamIds : list Z;
  competitionId : option Z;
  playerUsage : option PlayerUsageData
}.

(** ** Asynchronous code: state and rejection *)

Definition Cfg : Type := State * World.

Definition M (A : Type) : Type := Cfg -> result A * Cfg.

#[global] Instance M_ret : MRet M := fun A a c => (Ok a, c).

#[global] Instance M_bind : MBind M := fun A B f m c =>
  match m c with
  | (Ok a, c') => f a c'
  | (Err e, c') => (Err e, c')
  end.

#[global] Instance M_fmap : FMap M := fun A B f m c =>
  match m c with
  | (Ok a, c') => (Ok (f a), c')
  | (Err e, c') => (Err e, c')
  end.

(** [throw new Error(msg)] *)
Definition throw {A : Type} (msg : string) : M A := fun c => (Err msg, c).

(** Awaiting an already settled promise. *)
Definition settled {A : Type} (r : result A) : M A := fun c => (r, c).

Definition get_state : M State := fun c => (Ok (fst c), c).

Definition modify_state (f : State -> State) : M unit :=
  fun c => (Ok tt, (f (fst c), snd c)).

Definition get_world : M World := fun c => (Ok (snd c), c).

Definition modify_world (f : World -> World) : M unit :=
  fun c => (Ok tt, (fst c, f (snd c))).

Definition log (e : Event) : M unit :=
  modify_world (fun w => mkWorld (db w) (e :: history w)).

(** [try { body } catch (err) { handler(err.message) } finally { fin }] *)
Definition try_catch_finally (body : M unit) (handler : string -> M unit)
    (fin : M unit) : M unit :=
  fun c =>
    match body c with
    | (Ok _, c1) => fin c1
    | (Err e, c1) =>
        match handler e c1 with
        | (Ok _, c2) => fin c2
        | (Err e', c2) =>
            match fin c2 with
            | (Ok _, c3) => (Err e', c3)
            | (Err e'', c3) => (Err e'', c3)
            end
        end
    end.

(** React state setters. *)
Definition with_loading (k : string) (b : bool) (s : State) : State :=
  mkState (<[k := b]> (loading s)) (error s) (clubQuery s) (seasonId s) (clubs s)
    (selectedClub s) (allTeams s) (genreFilter s) (ageFilter s)
    (selectedTeamIds s) (competitionId s) (playerUsage s).

Definition with_error (e : option string) (s : State) : State :=
  mkState (loading s) e (clubQuery s) (seasonId s) (clubs s)
    (selectedClub s) (allTeams s) (genreFilter s) (ageFilter s)
    (selectedTeamIds s) (competitionId s) (playerUsage s).

Definition with_clubQuery (q : string) (s : State) : State :=
  mkState (loading s) (error s) q (seasonId s) (clubs s)
    (selectedClub s) (allTeams s) (genreFilter s) (ageFilter s)
    (selectedTeamIds s) (competitionId s) (playerUsage s).

Definition with_clubs (l : list Club) (s : State) : State :=
  mkState (loading s) (error s) (clubQuery s) (seasonId s) l
    (selectedClub s) (allTeams s) (genreFilter s) (ageFilter s)
    (selectedTeamIds s) (competitionId s) (playerUsage s).

Definition with_selectedClub (c : option (Obj Club)) (s : State) : State :=
  mkState (loading s) (error s) (clubQuery s) (seasonId s) (clubs s)
    c (allTeams s) (genreFilter s) (ageFilter s)
    (selectedTeamIds s) (competitionId s) (playerUsage s).

Definition with_allTeams (l : list Team) (s : State) : State :=
  mkState (loading s) (error s) (clubQuery s) (seasonId s) (clubs s)
    (selectedClub s) l (genreFilter s) (ageFilter s)
    (selectedTeamIds s) (competitionId s) (playerUsage s).

Definition with_selectedTeamIds (ids : list Z) (s : State) : State :=
  mkState (loading s) (error s) (clubQuery s) (seasonId s) (clubs s)
    (selectedClub s) (allTeams s) (genreFilter s) (ageFilter s)
    ids (competitionId s) (playerUsage s).

Definition with_competitionId (c : option Z) (s : State) : State :=
  mkState (loading s) (error s) (clubQuery s) (seasonId s) (clubs s)
    (selectedClub s) (allTeams s) (genreFilter s) (ageFilter s)
    (selectedTeamIds s) c (playerUsage s).

Definition with_playerUsage (u : option PlayerUsageData) (s : State) : State :=
  mkState (loading s) (error s) (clubQuery s) (seasonId s) (clubs s)
    (selectedClub s) (allTeams s) (genreFilter s) (ageFilter s)
    (selectedTeamIds s) (competitionId s) u.

Definition setLoading (k : string) (b : bool) : M unit := modify_state (with_loading k b).
Definition setError (e : option string) : M unit := modify_state (with_error e).
Definition setClubQuery (q : string) : M unit := modify_state (with_clubQuery q).
Definition setClubs (l : list Club) : M unit := modify_state (with_clubs l).
Definition setSelectedClub (c : option (Obj Club)) : M unit := modify_state (with_selectedClub c).
Definition setAllTeams (l : list Team) : M unit := modify_state (with_allTeams l).
Definition setSelectedTeamIds (ids : list Z) : M unit := modify_state (with_selectedTeamIds ids).
Definition setCompetitionId (c : option Z) : M unit := modify_state (with_competitionId c).
Definition setPlayerUsage (u : option PlayerUsageData) : M unit := modify_state (with_playerUsage u).

(** ** The fold step of [handleFetchPlayerUsage] (lines 172-193) *)

(** [`Uke ${week}`] *)
Definition weekLabel (w : Z) : string := "Uke " ++ Js.toString w.

(** The three accumulators of the fold: [players], [usage] and [weekSet]. *)
Record FoldAcc : Type := mkAcc {
  acc_players : gmap string string;
  acc_usage : gmap string (gmap string string);
  acc_weekSet : list Z
}.

(** Truthiness of [players[playerId]]: a missing property is [undefined]. *)
Definition truthy_prop (v : option string) : bool :=
  match v with Some s => Js.truthy_str s | None => false end.

(** [array.forEach(f)] where [f] may throw. *)
Fixpoint forEach {A S : Type} (f : S -> A -> result S) (l : list A) (s : S)
    : result S :=
  match l with
  | [] => Ok s
  | x :: l' =>
      match f s x with
      | Ok s' => forEach f l' s'
      | Err e => Err e
      end
  end.

(** The body of [team.players.forEach]; assigning into a missing
    [usage[playerId]] throws a [TypeError]. *)
Definition recordPlayer (m : Match) (team : Side) (acc : FoldAcc)
    (player : Player) : result FoldAcc :=
  let playerId := Js.toString (personId player) in
  let acc1 :=
    if negb (truthy_prop (acc_players acc !! playerId))
    then mkAcc (<[playerId := firstName player ++ " " ++ lastName player]> (acc_players acc))
               (<[playerId := ∅]> (acc_usage acc))
               (acc_weekSet acc)
    else acc in
  match acc_usage acc1 !! playerId with
  | Some row =>
      Ok (mkAcc (acc_players acc1)
                (<[playerId := <[weekLabel (week m) := side_name team]> row]> (acc_usage acc1))
                (acc_weekSet acc1))
  | None => Err "Cannot set properties of undefined"
  end.

(** The side of the match that is folded: the home side when its id is
    selected, the away side otherwise (line 177). *)
Definition chosenSide (selectedTeamIds : list Z) (m : Match) : Side :=
  if JsSet.has (side_id (homeTeam m)) selectedTeamIds then homeTeam m else awayTeam m.

(** The body of [allMatchDetails.forEach]. *)
Definition foldMatch (selectedTeamIds : list Z) (acc : FoldAcc) (m : Match)
    : result FoldAcc :=
  let team := chosenSide selectedTeamIds m in
  if negb (JsSet.has (side_id team) selectedTeamIds) then Ok acc
  else
    forEach (recordPlayer m team) (players_of team)
      (mkAcc (acc_players acc) (acc_usage acc) (JsSet.add (week m) (acc_weekSet acc))).

(** [Array.prototype.sort(cmp)]: a stable sort; [x] goes before the first
    element it compares below. *)
Fixpoint insert_by (cmp : Z -> Z -> Z) (x : Z) (l : list Z) : list Z :=
  match l with
  | [] => [x]
  | y :: l' => if Z.ltb (cmp x y) 0 then x :: y :: l' else y :: insert_by cmp x l'
  end.

Definition sort_by (cmp : Z -> Z -> Z) (l : list Z) : list Z :=
  fold_left (fun acc x => insert_by cmp x acc) l [].

Definition foldUsage (selectedTeamIds : list Z) (allMatchDetails : list Match)
    : result PlayerUsageData :=
  match forEach (foldMatch selectedTeamIds) allMatchDetails (mkAcc ∅ ∅ []) with
  | Ok acc =>
      Ok (mkUsage (acc_players acc)
                  (map weekLabel (sort_by (fun a b => a - b) (acc_weekSet acc)))
                  (acc_usage acc))
  | Err e => Err e
  end.

Definition emptyUsage : PlayerUsageData := mkUsage ∅ [] ∅.

(** [Promise.all] over promises settled to [rs]: the values in order when
    all are fulfilled, otherwise the rejection that settles first. *)
Fixpoint rejections {A : Type} (i : nat) (rs : list (result A)) : list (nat * string) :=
  match rs with
  | [] => []
  | Ok _ :: rs' => rejections (S i) rs'
  | Err msg :: rs' => (i, msg) :: rejections (S i) rs'
  end.

Definition earliest (rank : nat -> nat) (l : list (nat * string)) : option (nat * string) :=
  fold_left
    (fun best x =>
       match best with
       | None => Some x
       | Some b => if Nat.ltb (rank (fst x)) (rank (fst b)) then Some x else Some b
       end)
    l None.

Fixpoint fulfilled {A : Type} (rs : list (result A)) : list A :=
  match rs with
  | [] => []
  | Ok a :: rs' => a :: fulfilled rs'
  | Err _ :: rs' => fulfilled rs'
  end.

Definition join_all {A : Type} (rank : nat -> nat) (rs : list (result A)) : result (list A) :=
  match earliest rank (rejections 0 rs) with
  | Some (_, msg) => Err msg
  | None => Ok (fulfilled rs)
  end.

(** Every promise of the list runs to its end, whether or not a sibling
    rejects; siblings work on distinct keys and are run in index order. *)
Fixpoint run_all {A : Type} (tasks : list (M A)) (c : Cfg) : list (result A) * Cfg :=
  match tasks with
  | [] => ([], c)
  | t :: tasks' =>
      let '(r, c1) := t c in
      let '(rs, c2) := run_all tasks' c1 in
      (r :: rs, c2)
  end.

(** ** [src/db.ts], [src/api.ts] and the handlers of [Tracker.tsx] *)

Section Tracker.

Context (env : Env) (token : string).

(** [Date.now()] *)
Definition dateNow : M Z := fun c => (Ok (clock env (history (snd c))), c).

(** The prop [onActivity]: re-arms the session timer of the parent. *)
Definition onActivity : M unit := log EvActivity.

(** One IndexedDB request: [openDB] and the transaction either succeed
    or reject with the error of the request. *)
Definition db_request (e : Event) : M unit :=
  log e;;
  w ← get_world;
  match db_fault env (history w) with
  | Some msg => throw msg
  | None => mret tt
  end.

(** [getFromDB(storeName, key)]: [request.result || null]. *)
Definition getFromDB {T : Type} (s : Store T) (k : Key) : M (option (CacheItem T)) :=
  db_request (EvDbGet (store_name s) k);;
  w ← get_world;
  mret (store_get s (db w) !! k).

(** [setToDB(storeName, item)]: [store.put(item)] with key path [key]. *)
Definition setToDB {T : Type} (s : Store T) (item : CacheItem T) : M unit :=
  db_request (EvDbPut (store_name s) (key item));;
  modify_world (fun w =>
    mkWorld (store_set s (<[key item := item]> (store_get s (db w))) (db w))
            (history w)).

(** [if (isCacheValid(cached)) ... cached.data]: the payload of a fresh
    entry. *)
Definition cache_hit {T : Type} (now : Z) (cached : option (CacheItem T)) : option T :=
  if isCacheValid now cached then data <$> cached else None.

(** [fetch(url, init)] against the endpoint answering with [T]. *)
Definition fetch {T : Type} (remote : list Event -> Request -> Outcome T)
    (req : Request) : M (Resp T) :=
  log (EvFetch req);;
  w ← get_world;
  match remote (history w) req with
  | NetworkError msg => throw msg
  | Answer r => mret r
  end.

(** [apiFetch(url, token)]: a [GET] with the bearer token and the JSON
    content type. *)
Definition api_request (u : string) : Request :=
  mkRequest u "GET"
    [("Authorization", "Bearer " ++ token); ("Content-Type", "application/json")]
    [].

Definition apiFetch {T : Type} (remote : list Event -> Request -> Outcome T)
    (u : string) : M (Resp T) :=
  fetch remote (api_request u).

(** [await res.json()] *)
Definition json {T : Type} (r : Resp T) : M T := settled (json_body r).

(** [`${competitionId}`] for [number | null] *)
Definition show_nullable (o : option Z) : string :=
  match o with Some n => Js.toString n | None => "null" end.

(** [!competitionId] is false only for a non-zero number. *)
Definition truthy_nullable (o : option Z) : bool :=
  match o with Some n => Js.truthy_num n | None => false end.

(** *** [searchForClubs] (lines 37-96) *)

Definition searchForClubs : M unit :=
  st ← get_state;
  let clubQuery := clubQuery st in
  let seasonId := seasonId st in
  if negb (Js.truthy_str clubQuery) then mret tt
  else
    onActivity;;
    setLoading "clubs" true;;
    setError None;;
    try_catch_finally
      (let cacheKey := clubQuery ++ "-" ++ seasonId in
       cached ← getFromDB club_search_store (KStr cacheKey);
       now ← dateNow;
       match cache_hit now cached with
       | Some d => setClubs d
       | None =>
           response ← fetch (net_clubs env)
             (mkRequest "/TournamentSearchPage/SearchClubs" "POST"
                [("Content-Type", "application/x-www-form-urlencoded")]
                [("term", clubQuery); ("seasonId", seasonId)]);
           if negb (ok response)
           then throw ("Failed to fetch clubs. Status: " ++ Js.toString (status response))
           else
             rawData ← json response;
             let data := parseClubs rawData in
             setClubs data;;
             now' ← dateNow;
             setToDB club_search_store (mkCacheItem (KStr cacheKey) data now')
       end)
      (fun msg => setError (Some msg);; setClubs [])
      (setLoading "clubs" false).

(** *** [handleSelectClub] (lines 118-124) *)

Definition handleSelectClub (club : Obj Club) : M unit :=
  setSelectedClub (Some club);;
  setClubs [];;
  setClubQuery "";;
  setPlayerUsage None;;
  setSelectedTeamIds [].

(** *** The effects on [selectedClub] (lines 214-240 and 268-270) *)

Definition fetchTeams (selectedClub : Obj Club) : M unit :=
  onActivity;;
  setLoading "teams" true;;
  setError None;;
  try_catch_finally
    (cached ← getFromDB teams_store (KNum (club_id (val selectedClub)));
     now ← dateNow;
     match cache_hit now cached with
     | Some d => setAllTeams d
     | None =>
         response ← apiFetch (net_teams env)
           ("/api/Teams?clubId=" ++ Js.toString (club_id (val selectedClub)));
         if negb (ok response) then throw "Failed to fetch teams."
         else
           data ← json response;
           setAllTeams data;;
           now' ← dateNow;
           setToDB teams_store (mkCacheItem (KNum (club_id (val selectedClub))) data now')
     end)
    (fun msg => setError (Some msg))
    (setLoading "teams" false).

Definition effect_fetchTeams : M unit :=
  st ← get_state;
  match selectedClub st with
  | None => mret tt
  | Some c => fetchTeams c
  end.

Definition effect_resetCompetition : M unit := setCompetitionId None.

(** [Object.is] on the dependency [selectedClub]. *)
Definition same_object (a b : option (Obj Club)) : bool :=
  match a, b with
  | None, None => true
  | Some x, Some y => Nat.eqb (ref x) (ref y)
  | _, _ => false
  end.

(** A click on a listed club: the handler, then the render, after which
    the effects depending on [selectedClub] run if it is another
    object ([token] and [onActivity] do not change).  The effect on
    [clubQuery] (lines 105-116) also runs when the query was not empty;
    with the query now empty it only repeats [setClubs([])]. *)
Definition selectClub (club : Obj Club) : M unit :=
  before ← get_state;
  handleSelectClub club;;
  after ← get_state;
  if same_object (selectedClub before) (selectedClub after) then mret tt
  else effect_fetchTeams;; effect_resetCompetition.

(** *** [handleFetchPlayerUsage] (lines 126-200) *)

(** The body of [teamIds.map(async (id) => ...)] (lines 139-149). *)
Definition fetchMatchList (competitionId : option Z) (id : Z) : M (list MatchStub) :=
  let cacheKey := Js.toString id ++ "-" ++ show_nullable competitionId in
  cached ← getFromDB match_lists_store (KStr cacheKey);
  now ← dateNow;
  match cache_hit now cached with
  | Some d => mret d
  | None =>
      res ← apiFetch (net_matches env)
        ("/api/Matches?teamId=" ++ Js.toString id
           ++ "&competitionId=" ++ show_nullable competitionId);
      if negb (ok res) then throw ("Failed fetching matches for team " ++ Js.toString id)
      else
        data ← json res;
        now' ← dateNow;
        setToDB match_lists_store (mkCacheItem (KStr cacheKey) data now');;
        mret data
  end.

(** The body of [Array.from(allMatchIds).map(async (id) => ...)]
    (lines 159-168). *)
Definition fetchMatchDetail (id : Z) : M Match :=
  cached ← getFromDB match_details_store (KNum id);
  now ← dateNow;
  match cache_hit now cached with
  | Some d => mret d
  | None =>
      res ← apiFetch (net_match env) ("/api/Matches/" ++ Js.toString id);
      if negb (ok res) then throw ("Failed fetching details for match " ++ Js.toString id)
      else
        data ← json res;
        now' ← dateNow;
        setToDB match_details_store (mkCacheItem (KNum id) data now');;
        mret data
  end.

(** [await Promise.all(promises)] *)
Definition promise_all {A : Type} (tasks : list (M A)) : M (list A) :=
  fun c =>
    let '(rs, c') := run_all tasks c in
    (join_all (settle_rank env (history (snd c'))) rs, c').

(** Stage C (lines 137-152): the match lists of the selected teams and
    the set of their match ids. *)
Definition stageC (selectedTeamIds : list Z) (competitionId : option Z) : M (list Z) :=
  let teamIds := selectedTeamIds in
  matchLists ← promise_all (map (fetchMatchList competitionId) teamIds);
  mret (JsSet.of_list (map stub_id (concat matchLists))).

(** Stage D and the fold (lines 159-193). *)
Definition stageD (selectedTeamIds : list Z) (allMatchIds : list Z) : M unit :=
  allMatchDetails ← promise_all (map fetchMatchDetail allMatchIds);
  r ← settled (foldUsage selectedTeamIds allMatchDetails);
  setPlayerUsage (Some r).

Definition handleFetchPlayerUsage : M unit :=
  st ← get_state;
  let selectedTeamIds := selectedTeamIds st in
  let competitionId := competitionId st in
  if Z.eqb (JsSet.size selectedTeamIds) 0 || negb (truthy_nullable competitionId)
  then setError (Some "Please select at least one team and a competition.")
  else
    onActivity;;
    setLoading "usage" true;;
    setError None;;
    setPlayerUsage None;;
    try_catch_finally
      (allMatchIds ← stageC selectedTeamIds competitionId;
       if Z.eqb (JsSet.size allMatchIds) 0 then setPlayerUsage (Some emptyUsage)
       else stageD selectedTeamIds allMatchIds)
      (fun msg => setError (Some msg))
      (setLoading "usage" false).

(** *** [handleTeamSelection] (lines 202-212) *)

Definition handleTeamSelection (teamId : Z) : M unit :=
  modify_state (fun s =>
    with_selectedTeamIds
      (if JsSet.has teamId (selectedTeamIds s)
       then JsSet.delete teamId (selectedTeamIds s)
       else JsSet.add teamId (selectedTeamIds s)) s).

End Tracker.

(** ** Auxiliary notions of the statements *)

(** The step of [rawData.forEach] in [searchForClubs]. *)
Definition club_step (m : list (Z * RawClubData)) (club : RawClubData)
    : list (Z * RawClubData) :=
  if club_ok club then JsMap.set (value club) club m else m.

(** The last entry of a raw list that passes the filter and carries id [i]. *)
Fixpoint last_valid (i : Z) (rawData : list RawClubData) : option RawClubData :=
  match rawData with
  | [] => None
  | c :: rawData' =>
      match last_valid i rawData' with
      | Some c' => Some c'
      | None => if club_ok c && Z.eqb (value c) i then Some c else None
      end
  end.

(** The raw answer of the example of the specification. *)
Definition example_raw : list RawClubData :=
  [mkRaw 1 "A"; mkRaw 1 "B"; mkRaw 0 "C"; mkRaw 2 ""].

(** A fetch fails when the transport fails, the response is not ok, or
    its body does not parse. *)
Definition fetch_failed {T : Type} (o : Outcome T) : bool :=
  match o with
  | NetworkError _ => true
  | Answer r => negb (ok r) || is_err (json_body r)
  end.

Definition is_put (e : Event) : bool :=
  match e with EvDbPut _ _ => true | _ => false end.

(** The cache writes of a history. *)
Definition puts (h : list Event) : list Event := List.filter is_put h.

(** Nothing was written between two worlds: same stores, no [put]. *)
Definition cache_untouched (w w' : World) : Prop :=
  db w' = db w /\ puts (history w') = puts (history w).

(** The analysis passes its validation: a team is selected and the
    competition id is a non-zero number. *)
Definition guard_passes (st : State) : Prop :=
  selectedTeamIds st <> [] /\ truthy_nullable (competitionId st) = true.

(** The configuration in which Stage C starts: the session is re-armed,
    [loading.usage] is set, the error and the previous result are cleared. *)
Definition analysis_start (st : State) (w : World) : Cfg :=
  (with_playerUsage None (with_error None (with_loading "usage" true st)),
   mkWorld (db w) (EvActivity :: history w)).

(** How the promises of Stage C, run from the start of the analysis, and
    those of Stage D, run from a configuration, settle. *)
Definition stageC_outcomes (env : Env) (token : string) (st : State) (w : World)
    : list (result (list MatchStub)) :=
  fst (run_all (map (fetchMatchList env token (competitionId st)) (selectedTeamIds st))
         (analysis_start st w)).

Definition stageD_outcomes (env : Env) (token : string) (ids : list Z) (c : Cfg)
    : list (result Match) :=
  fst (run_all (map (fetchMatchDetail env token) ids) c).

(** The request each cache-or-fetch path issues on a miss, and the history
    at which the remote answers it. *)
Definition clubs_request (st : State) : Request :=
  mkRequest "/TournamentSearchPage/SearchClubs" "POST"
    [("Content-Type", "application/x-www-form-urlencoded")]
    [("term", clubQuery st); ("seasonId", seasonId st)].

Definition clubs_fetch_point (st : State) (w : World) : list Event :=
  EvFetch (clubs_request st)
    :: EvDbGet "club-search" (KStr (clubQuery st ++ "-" ++ seasonId st))
    :: EvActivity :: history w.

Definition teams_request (token : string) (club : Obj Club) : Request :=
  api_request token ("/api/Teams?clubId=" ++ Js.toString (club_id (val club))).

Definition teams_fetch_point (token : string) (club : Obj Club) (w : World) : list Event :=
  EvFetch (teams_request token club)
    :: EvDbGet "teams" (KNum (club_id (val club)))
    :: EvActivity :: history w.

Definition matches_request (token : string) (competitionId : option Z) (id : Z) : Request :=
  api_request token
    ("/api/Matches?teamId=" ++ Js.toString id
       ++ "&competitionId=" ++ show_nullable competitionId).

Definition matches_fetch_point (token : string) (competitionId : option Z) (id : Z)
    (w : World) : list Event :=
  EvFetch (matches_request token competitionId id)
    :: EvDbGet "match-lists" (KStr (Js.toString id ++ "-" ++ show_nullable competitionId))
    :: history w.

Definition match_request (token : string) (id : Z) : Request :=
  api_request token ("/api/Matches/" ++ Js.toString id).

Definition match_fetch_point (token : string) (id : Z) (w : World) : list Event :=
  EvFetch (match_request token id) :: EvDbGet "match-details" (KNum id) :: history w.

(** The accumulators of the fold stay consistent: [players] and [usage]
    have the same keys, no registered name is empty, and the week set has
    no repetition. *)
Definition acc_wf (a : FoldAcc) : Prop :=
  dom (acc_usage a) = dom (acc_players a)
  /\ (forall k v, acc_players a !! k = Some v -> v <> "")
  /\ NoDup (acc_weekSet a).

(** Code that does not touch the React state. *)
Definition state_preserving {A : Type} (m : M A) : Prop :=
  forall c, fst (snd (m c)) = fst c.

(** A rejected promise. *)
Definition rejected {A : Type} (r : result A) : Prop := is_err r = true.

(** ** Sample environments and states *)

Definition empty_db : DB := mkDB ∅ ∅ ∅ ∅.

Definition fresh_world : World := mkWorld empty_db [].

(** The network is down: every request fails at the transport. *)
Definition env_down : Env :=
  mkEnv (fun _ => 1000) (fun _ => None)
    (fun _ _ => NetworkError "Failed to fetch")
    (fun _ _ => NetworkError "Failed to fetch")
    (fun _ _ => NetworkError "Failed to fetch")
    (fun _ _ => NetworkError "Failed to fetch")
    (fun _ i => i).

(** The remote knows no match of any team. *)
Definition env_no_match : Env :=
  mkEnv (fun _ => 1000) (fun _ => None)
    (fun _ _ => Answer (mkResp true 200 (Ok [])))
    (fun _ _ => Answer (mkResp true 200 (Ok [])))
    (fun _ _ => Answer (mkResp true 200 (Ok [])))
    (fun _ _ => NetworkError "Failed to fetch")
    (fun _ i => i).

Definition sample_team : Team := mkTeam 11 "G14" 1 "Nesodden IF" [mkCompetition 3 "Serie"] "G14" "Gutter".

(** A state in which club 1 is selected, its teams are listed, teams 11
    and 12 are ticked and competition 3 is chosen. *)
Definition sample_state : State :=
  mkState ∅ None "" "107" [mkClub 2 "Drobak"] (Some (mkObj 0%nat (mkClub 1 "Nesodden IF")))
    [sample_team] "" "" [11; 12] (Some 3) None.

(** The same state before any team is ticked. *)
Definition sample_state_no_team : State := with_selectedTeamIds [] sample_state.

(** A club object of a later search result. *)
Definition other_club : Obj Club := mkObj 1%nat (mkClub 2 "Drobak").

(** A match both sides of which are selected teams. *)
Definition both_selected_match : Match :=
  mkMatch 5 10 (mkSide 11 "G14-1" [mkPlayer 7 "Ola" "Hansen"])
               (mkSide 12 "G14-2" [mkPlayer 8 "Per" "Olsen"]).

(** ** [src/api.ts]: [apiFetch] with caller options *)

(** A plain object with string keys, in insertion order: assigning to a
    property already present replaces its value in place. *)
Module JsObj.

Fixpoint set (k v : string) (o : list (string * string)) : list (string * string) :=
  match o with
  | [] => [(k, v)]
  | (k', v') :: o' =>
      if String.eqb k k' then (k, v) :: o' else (k', v') :: set k v o'
  end.

Fixpoint get (k : string) (o : list (string * string)) : option string :=
  match o with
  | [] => None
  | (k', v') :: o' => if String.eqb k k' then Some v' else get k o'
  end.


End JsObj.





(** ** [Tracker.tsx]: the options derived from [allTeams] (lines 242-283) *)

(** [Set<string>], in insertion order. *)
Module StrSet.

Definition has (x : string) (s : list string) : bool := existsb (String.eqb x) s.

Definition add (x : string) (s : list string) : list string :=
  if has x s then s else s ++ [x].

Definition of_list (l : list string) : list string :=
  fold_left (fun s x => add x s) l [].

End StrSet.

(** [Array.prototype.sort()] without a comparator on strings: a stable
    sort by code units. *)
Fixpoint insert_str (x : string) (l : list string) : list string :=
  match l with
  | [] => [x]
  | y :: l' => if String.ltb x y then x :: y :: l' else y :: insert_str x l'
  end.

Definition sort_strings (l : list string) : list string :=
  fold_left (fun acc x => insert_str x acc) l [].

(** [genreSet] and [ageSet] of the first [useMemo]. *)
Definition genreSet (allTeams : list Team) : list string :=
  fold_left (fun s team => StrSet.add (genre team) s) allTeams [].

Definition ageSet (allTeams : list Team) : list string :=
  fold_left (fun s team => StrSet.add (ageCategory team) s) allTeams [].

Definition genreOptions (allTeams : list Team) : list string :=
  sort_strings (genreSet allTeams).

Definition ageOptions (allTeams : list Team) : list string :=
  sort_strings (ageSet allTeams).

(** [compMap]: [if (!compMap.has(c.id)) compMap.set(c.id, c.name)] over the
    competitions of every team. *)
Definition compMap_step (m : list (Z * string)) (c : Competition) : list (Z * string) :=
  if negb (JsMap.has (comp_id c) m) then JsMap.set (comp_id c) (comp_name c) m else m.

Definition compMap (allTeams : list Team) : list (Z * string) :=
  fold_left (fun m team => fold_left compMap_step (competitions team) m) allTeams [].

(** [(!genreFilter || team.genre.name === genreFilter) &&
     (!ageFilter || team.ageCategory.name === ageFilter)] *)
Definition team_matches (genreFilter ageFilter : string) (team : Team) : bool :=
  (negb (Js.truthy_str genreFilter) || Js.str_eqb (genre team) genreFilter)
  && (negb (Js.truthy_str ageFilter) || Js.str_eqb (ageCategory team) ageFilter).

Definition filteredTeams (st : State) : list Team :=
  List.filter (team_matches (genreFilter st) (ageFilter st)) (allTeams st).

(** [commonCompetitions] of the second [useMemo]: every competition of
    every selected team, [set] unconditionally. *)
Definition commonCompetitions (selectedTeamIds : list Z) (allTeams : list Team)
    : list (Z * string) :=
  let teamCompetitions :=
    flat_map competitions
      (List.filter (fun t => JsSet.has (team_id t) selectedTeamIds) allTeams) in
  fold_left (fun m c => JsMap.set (comp_id c) (comp_name c) m) teamCompetitions [].

(** [Array.from(map.entries()).map(([id, name]) => ({id, name}))] *)
Definition competitions_of_map (m : list (Z * string)) : list Competition :=
  map (fun e => mkCompetition (fst e) (snd e)) m.

Section Options.

(** [.sort((a, b) => a.name.localeCompare(b.name))]: the collation is
    that of the platform. *)
Variable sortByName : list Competition -> list Competition.

Definition competitionOptions (allTeams : list Team) : list Competition :=
  sortByName (competitions_of_map (compMap allTeams)).

Definition selectedTeamsCompetitions (st : State) : list Competition :=
  if Z.eqb (JsSet.size (selectedTeamIds st)) 0 then competitionOptions (allTeams st)
  else sortByName (competitions_of_map (commonCompetitions (selectedTeamIds st) (allTeams st))).

End Options.

(** ** [App.tsx]: the mocked login and the session timer (lines 603-658) *)

Module App.

Definition SESSION_DURATION_MS : Z := 30 * 60 * 1000.

(** What a pending timer will run. *)
Inductive TimerTask : Type :=
| SessionExpiry
| LoginReply (username password : string).

Record Timer : Type := mkTimer { timer_id : Z; due : Z; task : TimerTask }.

(** The state of [App], the [authToken] item of [localStorage], the
    pending timers of the window and the alerts shown so far. *)
Record AppState : Type := mkApp {
  token : option string;
  loading : bool;
  error : option string;
  sessionTimeoutRef : option Z;
  authToken : option string;
  timers : list Timer;
  nextTimerId : Z;
  alerts : list string
}.

(** [window.setTimeout(task, delay)] at time [now]: a new handle. *)
Definition setTimeout (t : TimerTask) (delay now : Z) (s : AppState) : Z * AppState :=
  (nextTimerId s,
   mkApp (token s) (loading s) (error s) (sessionTimeoutRef s) (authToken s)
     (timers s ++ [mkTimer (nextTimerId s) (now + delay) t]) (nextTimerId s + 1)
     (alerts s)).

Definition clearTimeout (id : Z) (s : AppState) : AppState :=
  mkApp (token s) (loading s) (error s) (sessionTimeoutRef s) (authToken s)
    (List.filter (fun t => negb (Z.eqb (timer_id t) id)) (timers s)) (nextTimerId s)
    (alerts s).

(** [if (sessionTimeoutRef.current) clearTimeout(sessionTimeoutRef.current)] *)
Definition clearSessionTimeout (s : AppState) : AppState :=
  match sessionTimeoutRef s with
  | Some id => if Js.truthy_num id then clearTimeout id s else s
  | None => s
  end.

Definition handleLogout (s : AppState) : AppState :=
  clearSessionTimeout
    (mkApp None (loading s) (error s) (sessionTimeoutRef s) None (timers s)
       (nextTimerId s) (alerts s)).

Definition resetSessionTimeout (now : Z) (s : AppState) : AppState :=
  let '(id, s1) := setTimeout SessionExpiry SESSION_DURATION_MS now (clearSessionTimeout s) in
  mkApp (token s1) (loading s1) (error s1) (Some id) (authToken s1) (timers s1)
    (nextTimerId s1) (alerts s1).

(** The callback of the session timer. *)
Definition sessionExpired (s : AppState) : AppState :=
  let s1 := handleLogout s in
  mkApp (token s1) (loading s1) (error s1) (sessionTimeoutRef s1) (authToken s1)
    (timers s1) (nextTimerId s1)
    (alerts s1 ++ ["Your session has expired due to inactivity. Please log in again."]).

Definition handleLogin (username password : string) (now : Z) (s : AppState) : AppState :=
  snd (setTimeout (LoginReply username password) 500 now
         (mkApp (token s) true None (sessionTimeoutRef s) (authToken s) (timers s)
            (nextTimerId s) (alerts s))).

(** The callback of the login timer, run at time [now]. *)
Definition loginReply (username password : string) (now : Z) (s : AppState) : AppState :=
  if Js.truthy_str username && Js.truthy_str password
  then
    let dummyToken := "dummy-token-" ++ Js.toString now in
    mkApp (Some dummyToken) false (error s) (sessionTimeoutRef s) (Some dummyToken)
      (timers s) (nextTimerId s) (alerts s)
  else
    mkApp (token s) false (Some "Please enter a username and password.")
      (sessionTimeoutRef s) (authToken s) (timers s) (nextTimerId s) (alerts s).

Definition run_task (t : TimerTask) (now : Z) (s : AppState) : AppState :=
  match t with
  | SessionExpiry => sessionExpired s
  | LoginReply username password => loginReply username password now s
  end.

(** The window runs a pending timer that is due: it leaves the list of
    pending timers and its callback runs. *)
Definition fire (t : Timer) (now : Z) (s : AppState) : option AppState :=
  if existsb (fun t' => Z.eqb (timer_id t') (timer_id t)) (timers s) && Z.leb (due t) now
  then Some (run_task (task t) now (clearTimeout (timer_id t) s))
  else None.

(** The effect on [token] (lines 631-641), after a render in which the
    token changed: the cleanup of the previous run, then the body. *)
Definition effect_token (now : Z) (s : AppState) : AppState :=
  let s1 := clearSessionTimeout s in
  match token s1 with
  | Some tok => if Js.truthy_str tok then resetSessionTimeout now s1 else s1
  | None => s1
  end.

(** The pending session timers. *)
Definition session_timers (s : AppState) : list Timer :=
  List.filter (fun t => match task t with SessionExpiry => true | _ => false end) (timers s).

(** Handles are positive, fresh and distinct, and the pending session
    timer, if any, is the one [sessionTimeoutRef] holds. *)
Definition session_inv (s : AppState) : Prop :=
  0 < nextTimerId s
  /\ (forall t, In t (timers s) -> 0 < timer_id t < nextTimerId s)
  /\ NoDup (map timer_id (timers s))
  /\ (forall id, sessionTimeoutRef s = Some id -> id < nextTimerId s)
  /\ (forall t, In t (timers s) ->
        (task t = SessionExpiry <-> sessionTimeoutRef s = Some (timer_id t))).

(** [App] at mount, with the stored token. *)
Definition initial (stored : option string) : AppState :=
  mkApp stored false None None stored [] 1 [].

End App.

(** ** Further notions of the statements *)

(** Ascending order of strings by code units. *)
Definition str_le (a b : string) : Prop := String.leb a b = true.

(** The accessors of a store are those of one field of the database. *)
Definition lawful_store {T : Type} (s : Store T) : Prop :=
  (forall m d, store_get s (store_set s m d) = m)
  /\ (forall d, store_set s (store_get s d) d = d)
  /\ (forall m m' d, store_set s m (store_set s m' d) = store_set s m d).

(** Code that only adds to the history of requests. *)
Definition history_growing {A : Type} (m : M A) : Prop :=
  forall c, exists evs, history (snd (snd (m c))) = (evs ++ history (snd c))%list.

Definition is_fetch (e : Event) : bool :=
  match e with EvFetch _ => true | _ => false end.

(** The remote answers a request with an ok response whose body parses
    to [d]. *)
Definition answers_ok {T : Type} (remote : list Event -> Request -> Outcome T)
    (h : list Event) (req : Request) (d : T) : Prop :=
  exists resp, remote h req = Answer resp /\ ok resp = true /\ json_body resp = Ok d.

(** The usage matrix has a cell for player [k] under week label [lbl]. *)
Definition has_cell (u : gmap string (gmap string string)) (k lbl : string) : Prop :=
  exists row, u !! k = Some row /\ is_Some (row !! lbl).

(** Between two worlds either nothing was requested, or the first thing
    done was to re-arm the session timer. *)
Definition rearmed (w w' : World) : Prop :=
  history w' = history w
  \/ exists evs, history w' = (evs ++ EvActivity :: history w)%list.

(** The selected side of a match, if any. *)
Definition selected_side (selectedTeamIds : list Z) (m : Match) : option Side :=
  if JsSet.has (side_id (chosenSide selectedTeamIds m)) selectedTeamIds
  then Some (chosenSide selectedTeamIds m)
  else None.

(** ** Further sample data *)

(** The remote answers every request. *)
Definition env_serving : Env :=
  mkEnv (fun _ => 1000) (fun _ => None)
    (fun _ _ => Answer (mkResp true 200 (Ok [mkRaw 1 "A"; mkRaw 1 "B"])))
    (fun _ _ => Answer (mkResp true 200 (Ok [sample_team])))
    (fun _ _ => Answer (mkResp true 200 (Ok [mkStub 5])))
    (fun _ _ => Answer (mkResp true 200 (Ok both_selected_match)))
    (fun _ i => i).

(** A world whose cache holds, since time 500, the teams of club 2 and
    the detail of match 5. *)
Definition cached_world : World :=
  mkWorld
    (mkDB ∅
       (<[KNum 2 := mkCacheItem (KNum 2) [sample_team] 500]> ∅)
       ∅
       (<[KNum 5 := mkCacheItem (KNum 5) both_selected_match 500]> ∅))
    [].

(** The sample state with the placeholder of the competition selector
    chosen, with a query typed, and with a genre filter set. *)
Definition sample_state_placeholder : State := with_competitionId (Some 0) sample_state.

Definition sample_state_query : State := with_clubQuery "Nes" sample_state.

Definition sample_state_genre : State :=
  mkState ∅ None "" "107" [] (Some (mkObj 0%nat (mkClub 1 "Nesodden IF")))
    [sample_team] "Gutter" "" [11] (Some 3) None.

(** A collation that leaves the list as it is. *)
Definition keep_order (l : list Competition) : list Competition := l.

(** * Properties *)

(** ** Season codec *)

Lemma take_dec_string_of_uint d : Js.take_dec (NilEmpty.string_of_uint d) = d.
Proof. induction d; simpl; congruence. Qed.

Lemma parse_unsigned_digits d :
  d <> Decimal.Nil ->
  Js.parse_unsigned (NilEmpty.string_of_uint d) = Some (Z.of_uint d).
Proof.
  intros Hd.
  destruct d as [|d|d|d|d|d|d|d|d|d|d]; try congruence;
    try (unfold Js.parse_unsigned; simpl; rewrite take_dec_string_of_uint; reflexivity).
  destruct d; unfold Js.parse_unsigned; simpl;
    rewrite ?take_dec_string_of_uint; reflexivity.
Qed.

Lemma parseInt_digits d :
  d <> Decimal.Nil -> Js.parseInt (NilEmpty.string_of_uint d) = Some (Z.of_uint d).
Proof.
  intros Hd. rewrite <- (parse_unsigned_digits d Hd).
  destruct d; try congruence; reflexivity.
Qed.

Lemma parseInt_toString z : Js.parseInt (Js.toString z) = Some z.
Proof.
  unfold Js.toString. rewrite <- (DecimalZ.of_to z) at 2.
  destruct z as [|p|p]; simpl Z.to_int.
  - reflexivity.
  - apply parseInt_digits, DecimalPos.Unsigned.to_uint_nonnil.
  - simpl NilEmpty.string_of_int. unfold Js.parseInt. simpl.
    rewrite parse_unsigned_digits by apply DecimalPos.Unsigned.to_uint_nonnil.
    reflexivity.
Qed.

Lemma toString_inj a b : Js.toString a = Js.toString b -> a = b.
Proof.
  intros H. apply (f_equal Js.parseInt) in H.
  rewrite !parseInt_toString in H. congruence.
Qed.


(** ** Cache freshness *)

(** C5. [isCacheValid] holds exactly of a present entry younger than
    3600000 ms; an entry whose age is exactly 3600000 ms is stale, and a
    missing entry is stale (the function is total: it never throws). *)
Theorem isCacheValid_spec (T : Type) (now : Z) (e : option (CacheItem T)) :
  (isCacheValid now e = true <->
     exists it, e = Some it /\ now - timestamp it < 3600000)
  /\ (forall it : CacheItem T, isCacheValid (timestamp it + 3600000) (Some it) = false)
  /\ isCacheValid now (@None (CacheItem T)) = false.
Proof.
  split; [|split].
  - destruct e as [it|]; simpl.
    + rewrite Z.ltb_lt. change CACHE_DURATION_MS with 3600000. split.
      * intros H. exists it. auto.
      * intros (it' & Heq & H). inversion Heq; subst. exact H.
    + split; [discriminate|]. intros (it & Heq & _). discriminate.
  - intros it. simpl. apply Z.ltb_ge. change CACHE_DURATION_MS with 3600000. lia.
  - reflexivity.
Qed.

(** ** Club search deduplication *)

Lemma trimEnd_empty s : Js.trimEnd s = "" <-> Js.whitespace_only s = true.
Proof.
  induction s as [|c s IH]; simpl; [tauto|].
  destruct (Js.trimEnd s) eqn:E.
  - assert (Hs : Js.whitespace_only s = true) by (apply IH; reflexivity).
    rewrite Hs, andb_true_r. destruct (Js.is_white_space c); split; congruence.
  - split; [discriminate|]. intros H. apply andb_true_iff in H as [_ H].
    apply IH in H. discriminate.
Qed.

Lemma whitespace_only_trimStart s :
  Js.whitespace_only (Js.trimStart s) = Js.whitespace_only s.
Proof.
  induction s as [|c s IH]; simpl; [reflexivity|].
  destruct (Js.is_white_space c) eqn:E; simpl; [exact IH|].
  rewrite E. reflexivity.
Qed.

Lemma trim_empty s : Js.trim s = "" <-> Js.whitespace_only s = true.
Proof.
  unfold Js.trim. rewrite trimEnd_empty, whitespace_only_trimStart. tauto.
Qed.

(** An entry passes the filter exactly when its id is not zero and its
    label has a character that is not white space. *)
Lemma club_ok_spec r :
  club_ok r = true <-> value r <> 0 /\ Js.whitespace_only (label r) = false.
Proof.
  unfold club_ok, Js.truthy_num, Js.str_eqb.
  rewrite !andb_true_iff, !negb_true_iff, Z.eqb_neq, bool_decide_eq_false.
  rewrite trim_empty. split.
  - intros [[Hv _] Hw]. split; [exact Hv|].
    destruct (Js.whitespace_only (label r)); congruence.
  - intros [Hv Hw]. repeat split; [exact Hv| |congruence].
    destruct (label r); [discriminate|reflexivity].
Qed.

Section JsMapFacts.

Context {V : Type}.
Implicit Types (m : list (Z * V)) (k : Z) (v : V).

Lemma get_set_eq m k v : JsMap.get k (JsMap.set k v m) = Some v.
Proof.
  induction m as [|[k' v'] m IH]; simpl.
  - rewrite Z.eqb_refl. reflexivity.
  - destruct (Z.eqb k k') eqn:E; simpl; rewrite ?Z.eqb_refl, ?E; auto.
Qed.

Lemma get_set_ne m k k' v : k' <> k -> JsMap.get k' (JsMap.set k v m) = JsMap.get k' m.
Proof.
  intros Hne. induction m as [|[k0 v0] m IH]; simpl.
  - apply Z.eqb_neq in Hne. rewrite Hne. reflexivity.
  - destruct (Z.eqb k k0) eqn:E; simpl.
    + apply Z.eqb_eq in E. subst k0. apply Z.eqb_neq in Hne. rewrite Hne. reflexivity.
    + destruct (Z.eqb k' k0); auto.
Qed.

Lemma get_In m k v : JsMap.get k m = Some v -> In (k, v) m.
Proof.
  induction m as [|[k0 v0] m IH]; simpl; [discriminate|].
  destruct (Z.eqb k k0) eqn:E.
  - apply Z.eqb_eq in E. intros [= ->]. left. congruence.
  - auto.
Qed.

Lemma In_set m k v k' v' :
  In (k', v') (JsMap.set k v m) -> (k', v') = (k, v) \/ In (k', v') m.
Proof.
  induction m as [|[k0 v0] m IH]; simpl.
  - intros [H|[]]; auto.
  - destruct (Z.eqb k k0); simpl; intros [H|H]; auto.
    apply IH in H. tauto.
Qed.

Lemma keys_set m k v :
  JsMap.keys (JsMap.set k v m)
  = if JsMap.has k m then JsMap.keys m else (JsMap.keys m ++ [k])%list.
Proof.
  unfold JsMap.keys, JsMap.has.
  induction m as [|[k0 v0] m IH]; simpl; [reflexivity|].
  destruct (Z.eqb k k0) eqn:E; simpl.
  - apply Z.eqb_eq in E. congruence.
  - rewrite IH. destruct (existsb _ m); reflexivity.
Qed.

Lemma has_keys m k : JsMap.has k m = true <-> In k (JsMap.keys m).
Proof.
  unfold JsMap.has, JsMap.keys. rewrite existsb_exists, in_map_iff. split.
  - intros (e & He & Hk). apply Z.eqb_eq in Hk. exists e. split; congruence.
  - intros (e & Hk & He). exists e. split; [exact He|]. apply Z.eqb_eq. congruence.
Qed.

Lemma NoDup_keys_set m k v : NoDup (JsMap.keys m) -> NoDup (JsMap.keys (JsMap.set k v m)).
Proof.
  intros Hnd. rewrite keys_set. destruct (JsMap.has k m) eqn:E; [exact Hnd|].
  apply NoDup_app; repeat split; [exact Hnd| |apply NoDup_singleton].
  intros x Hx Hin. apply list_elem_of_In in Hx, Hin.
  destruct Hin as [->|[]].
  apply has_keys in Hx. congruence.
Qed.

End JsMapFacts.

Lemma uniqueClubs_fold rawData : uniqueClubs rawData = fold_left club_step rawData [].
Proof. reflexivity. Qed.

(** What [get] finds after the loop: the last valid entry of the id, or
    what was there before. *)
Lemma get_club_fold rawData : forall m i,
  JsMap.get i (fold_left club_step rawData m)
  = match last_valid i rawData with
    | Some c => Some c
    | None => JsMap.get i m
    end.
Proof.
  induction rawData as [|c rawData IH]; intros m i; simpl; [reflexivity|].
  rewrite IH. destruct (last_valid i rawData); [reflexivity|].
  unfold club_step. destruct (club_ok c); simpl; [|reflexivity].
  destruct (Z.eqb (value c) i) eqn:E.
  - apply Z.eqb_eq in E. subst i. apply get_set_eq.
  - apply get_set_ne. apply Z.eqb_neq in E. congruence.
Qed.

Lemma last_valid_app i pre post :
  last_valid i (pre ++ post)
  = match last_valid i post with
    | Some c => Some c
    | None => last_valid i pre
    end.
Proof.
  induction pre as [|c pre IH]; simpl.
  - destruct (last_valid i post); reflexivity.
  - rewrite IH. destruct (last_valid i post); reflexivity.
Qed.

Lemma last_valid_none i post :
  (forall r, In r post -> club_ok r = true -> value r <> i) ->
  last_valid i post = None.
Proof.
  induction post as [|c post IH]; intros H; simpl; [reflexivity|].
  rewrite IH by (intros r Hr; apply H; right; exact Hr).
  destruct (club_ok c) eqn:Hc; simpl; [|reflexivity].
  destruct (Z.eqb (value c) i) eqn:E; [|reflexivity].
  apply Z.eqb_eq in E. exfalso. apply (H c); simpl; auto.
Qed.

(** The loop keeps the keys distinct, files every entry under its own id
    and only stores entries of the raw list that pass the filter. *)
Lemma club_fold_inv rawData : forall m,
  NoDup (JsMap.keys m) ->
  (forall k c, In (k, c) m -> k = value c) ->
  let m' := fold_left club_step rawData m in
  NoDup (JsMap.keys m')
  /\ (forall k c, In (k, c) m' -> k = value c)
  /\ (forall k c, In (k, c) m' -> In (k, c) m \/ (In c rawData /\ club_ok c = true)).
Proof.
  induction rawData as [|c rawData IH]; intros m Hnd Hk; simpl.
  - auto.
  - assert (Hnd' : NoDup (JsMap.keys (club_step m c))).
    { unfold club_step. destruct (club_ok c); [apply NoDup_keys_set|]; exact Hnd. }
    assert (Hk' : forall k c0, In (k, c0) (club_step m c) -> k = value c0).
    { unfold club_step. intros k c0 Hin. destruct (club_ok c); [|eauto].
      apply In_set in Hin as [[= -> ->]|Hin]; eauto. }
    destruct (IH _ Hnd' Hk') as (H1 & H2 & H3). repeat split; auto.
    intros k c0 Hin. apply H3 in Hin as [Hin|[Hin Hok]]; [|tauto].
    unfold club_step in Hin. destruct (club_ok c) eqn:Hc; [|tauto].
    apply In_set in Hin as [[= -> ->]|Hin]; tauto.
Qed.

Lemma parseClubs_ids rawData :
  map club_id (parseClubs rawData) = JsMap.keys (uniqueClubs rawData).
Proof.
  unfold parseClubs, JsMap.values, JsMap.keys. rewrite !map_map.
  apply map_ext_in. intros [k c] Hin. simpl.
  destruct (club_fold_inv rawData [] (NoDup_nil_2 : NoDup (JsMap.keys (@nil (Z * RawClubData)))))
    as (_ & Hk & _); [intros ? ? []|].
  symmetry. apply (Hk k c). exact Hin.
Qed.

(** C1 (amended). For every raw club list the parsed output has exactly
    one club per id carried by an entry that passes the filter; the name
    kept for an id is the label of its last such entry; entries whose id
    is zero or whose label is empty or white space only are dropped; the
    example of the specification yields [{id:1, name:"B"}]. *)
Theorem parseClubs_dedup (rawData : list RawClubData) :
  NoDup (map club_id (parseClubs rawData))
  /\ (forall c, In c (parseClubs rawData) ->
        exists r, In r rawData /\ value r <> 0
                  /\ Js.whitespace_only (label r) = false
                  /\ c = mkClub (value r) (label r))
  /\ (forall r, In r rawData -> value r <> 0 ->
        Js.whitespace_only (label r) = false ->
        In (value r) (map club_id (parseClubs rawData)))
  /\ (forall pre r post, rawData = (pre ++ r :: post)%list ->
        club_ok r = true ->
        (forall r', In r' post -> club_ok r' = true -> value r' <> value r) ->
        In (mkClub (value r) (label r)) (parseClubs rawData))
  /\ parseClubs example_raw = [mkClub 1 "B"].
Proof.
  destruct (club_fold_inv rawData [] (NoDup_nil_2 : NoDup (JsMap.keys (@nil (Z * RawClubData)))))
    as (Hnd & Hk & Hin); [intros ? ? []|].
  fold (uniqueClubs rawData) in Hnd, Hk, Hin.
  assert (Hlast : forall pre r post, rawData = (pre ++ r :: post)%list ->
            club_ok r = true ->
            (forall r', In r' post -> club_ok r' = true -> value r' <> value r) ->
            In (value r, r) (uniqueClubs rawData)).
  { intros pre r post -> Hok Hpost. apply get_In.
    rewrite uniqueClubs_fold, get_club_fold.
    change (pre ++ r :: post)%list with (pre ++ [r] ++ post)%list.
    rewrite !last_valid_app, (last_valid_none _ post Hpost). simpl.
    rewrite Hok, Z.eqb_refl. reflexivity. }
  repeat split.
  - rewrite parseClubs_ids. exact Hnd.
  - intros c Hc. unfold parseClubs, JsMap.values in Hc. rewrite map_map in Hc.
    apply in_map_iff in Hc as ([k r] & <- & Hr). simpl.
    destruct (Hin k r Hr) as [[]|[Hraw Hok]].
    apply club_ok_spec in Hok as [Hv Hw]. exists r. auto.
  - intros r Hr Hv Hw.
    assert (Hok : club_ok r = true) by (apply club_ok_spec; auto).
    (* the last valid entry carrying this id is stored under it *)
    assert (Hex : exists c, last_valid (value r) rawData = Some c).
    { clear -Hr Hok. induction rawData as [|c l IH]; [destruct Hr|]. simpl.
      destruct (last_valid (value r) l) eqn:E; [eauto|].
      destruct Hr as [->|Hr]; [|destruct (IH Hr); discriminate].
      rewrite Hok, Z.eqb_refl. eauto. }
    destruct Hex as [c Hc]. rewrite parseClubs_ids.
    apply (in_map fst (uniqueClubs rawData) (value r, c)).
    apply get_In. rewrite uniqueClubs_fold, get_club_fold, Hc. reflexivity.
  - intros pre r post Heq Hok Hpost. unfold parseClubs, JsMap.values.
    rewrite map_map. apply in_map_iff. exists (value r, r). split; [reflexivity|].
    eapply Hlast; eauto.
Qed.

(** C1, as stated, fails on its own example: the entry kept for id 1 is
    the one labelled ["B"], the last one seen, not ["A"]. *)
Lemma parseClubs_example_not_first_seen : parseClubs example_raw <> [mkClub 1 "A"].
Proof. vm_compute. discriminate. Qed.

(** ** The fold step *)

Lemma display_name_nonempty (a b : string) : a ++ " " ++ b <> "".
Proof. destruct a; discriminate. Qed.

Lemma truthy_prop_false_None (ps : gmap string string) k :
  (forall k v, ps !! k = Some v -> v <> "") ->
  truthy_prop (ps !! k) = false -> ps !! k = None.
Proof.
  intros Hne H. destruct (ps !! k) as [v|] eqn:E; [|reflexivity].
  specialize (Hne k v E). destruct v; simpl in H; congruence.
Qed.

Lemma recordPlayer_ok m team a p :
  acc_wf a ->
  exists a', recordPlayer m team a p = Ok a'
             /\ acc_wf a'
             /\ acc_weekSet a' = acc_weekSet a.
Proof.
  intros (Hdom & Hne & Hnd). unfold recordPlayer.
  set (k := Js.toString (personId p)).
  destruct (truthy_prop (acc_players a !! k)) eqn:Ht; simpl.
  - (* already registered *)
    assert (Hin : k ∈ dom (acc_usage a)).
    { rewrite Hdom. apply elem_of_dom. destruct (acc_players a !! k); [eauto|discriminate]. }
    apply elem_of_dom in Hin as [row Hrow]. rewrite Hrow.
    eexists. split; [reflexivity|]. repeat split; simpl; auto.
    rewrite dom_insert_L, <- Hdom.
    apply subseteq_union_1_L, singleton_subseteq_l, elem_of_dom. eauto.
  - (* first appearance *)
    rewrite lookup_insert_eq.
    eexists. split; [reflexivity|]. repeat split; simpl; auto.
    + rewrite !dom_insert_L, Hdom, (assoc_L (∪)), union_idemp_L. reflexivity.
    + intros k' v. rewrite lookup_insert. case_decide.
      * intros [= <-]. apply display_name_nonempty.
      * apply Hne.
Qed.

Lemma forEach_recordPlayer_ok m team ps : forall a,
  acc_wf a ->
  exists a', forEach (recordPlayer m team) ps a = Ok a'
             /\ acc_wf a'
             /\ acc_weekSet a' = acc_weekSet a.
Proof.
  induction ps as [|p ps IH]; intros a Hwf; simpl.
  - eauto.
  - destruct (recordPlayer_ok m team a p Hwf) as (a1 & -> & Hwf1 & Hw1).
    destruct (IH a1 Hwf1) as (a2 & -> & Hwf2 & Hw2).
    exists a2. repeat split; auto; try apply Hwf2. congruence.
Qed.

Lemma JsSet_has_In x s : JsSet.has x s = true <-> In x s.
Proof.
  unfold JsSet.has. rewrite existsb_exists. split.
  - intros (y & Hy & E). apply Z.eqb_eq in E. congruence.
  - intros H. exists x. split; [exact H|apply Z.eqb_refl].
Qed.

Lemma JsSet_add_NoDup x s : NoDup s -> NoDup (JsSet.add x s).
Proof.
  intros Hnd. unfold JsSet.add. destruct (JsSet.has x s) eqn:E; [exact Hnd|].
  apply NoDup_app. repeat split; [exact Hnd| |apply NoDup_singleton].
  intros y Hy Hin. apply list_elem_of_In in Hy, Hin. destruct Hin as [->|[]].
  apply JsSet_has_In in Hy. congruence.
Qed.

Lemma foldMatch_ok sel a m :
  acc_wf a -> exists a', foldMatch sel a m = Ok a' /\ acc_wf a'.
Proof.
  intros Hwf. unfold foldMatch.
  destruct (JsSet.has (side_id (chosenSide sel m)) sel); simpl; [|eauto].
  destruct (forEach_recordPlayer_ok m (chosenSide sel m) (players_of (chosenSide sel m))
              (mkAcc (acc_players a) (acc_usage a) (JsSet.add (week m) (acc_weekSet a))))
    as (a' & -> & Hwf' & _).
  - destruct Hwf as (H1 & H2 & H3). repeat split; simpl; auto.
    apply JsSet_add_NoDup, H3.
  - eauto.
Qed.

Lemma forEach_foldMatch_ok sel ms : forall a,
  acc_wf a -> exists a', forEach (foldMatch sel) ms a = Ok a' /\ acc_wf a'.
Proof.
  induction ms as [|m ms IH]; intros a Hwf; simpl; [eauto|].
  destruct (foldMatch_ok sel a m Hwf) as (a1 & -> & Hwf1). auto.
Qed.

(** Sorting with the comparator [(a, b) => a - b]. *)
Lemma insert_by_perm cmp x l : Permutation (insert_by cmp x l) (x :: l).
Proof.
  induction l as [|y l IH]; simpl; [reflexivity|].
  destruct (Z.ltb (cmp x y) 0); [reflexivity|].
  rewrite IH. apply perm_swap.
Qed.

Lemma sort_by_perm_acc cmp l : forall acc,
  Permutation (fold_left (fun acc x => insert_by cmp x acc) l acc) (acc ++ l).
Proof.
  induction l as [|x l IH]; intros acc; simpl.
  - rewrite app_nil_r. reflexivity.
  - rewrite IH, insert_by_perm. apply Permutation_middle.
Qed.

Lemma sort_by_perm cmp l : Permutation (sort_by cmp l) l.
Proof. apply (sort_by_perm_acc cmp l []). Qed.

Lemma insert_by_sorted x l :
  StronglySorted Z.le l -> StronglySorted Z.le (insert_by (fun a b => a - b) x l).
Proof.
  induction 1 as [|y l Hs IH Hall]; simpl.
  - repeat constructor.
  - destruct (Z.ltb (x - y) 0) eqn:E.
    + apply Z.ltb_lt in E. constructor; [constructor; assumption|].
      constructor; [lia|]. eapply Forall_impl; [exact Hall|].
      simpl. intros z Hz. lia.
    + apply Z.ltb_ge in E. constructor; [exact IH|].
      eapply Permutation_Forall; [symmetry; apply insert_by_perm|].
      constructor; [lia|exact Hall].
Qed.

Lemma sort_by_sorted_acc l : forall acc,
  StronglySorted Z.le acc ->
  StronglySorted Z.le (fold_left (fun acc x => insert_by (fun a b => a - b) x acc) l acc).
Proof.
  induction l as [|x l IH]; intros acc Hs; simpl; [exact Hs|].
  apply IH, insert_by_sorted, Hs.
Qed.

Lemma sorted_NoDup_strict l :
  StronglySorted Z.le l -> NoDup l -> StronglySorted Z.lt l.
Proof.
  induction 1 as [|x l Hs IH Hall]; intros Hnd; [constructor|].
  apply NoDup_cons in Hnd as [Hx Hnd]. constructor; [auto|].
  apply Forall_forall. intros y Hy.
  assert (x <= y) by (eapply Forall_forall in Hall; eauto).
  assert (x <> y) by (intros ->; contradiction). lia.
Qed.

Lemma sort_by_strict l :
  NoDup l -> StronglySorted Z.lt (sort_by (fun a b => a - b) l).
Proof.
  intros Hnd. apply sorted_NoDup_strict.
  - apply sort_by_sorted_acc. constructor.
  - rewrite sort_by_perm. exact Hnd.
Qed.

Lemma weekLabel_inj a b : weekLabel a = weekLabel b -> a = b.
Proof. unfold weekLabel. intros [= H]. apply toString_inj, H. Qed.

Lemma NoDup_map_weekLabel ns : NoDup ns -> NoDup (map weekLabel ns).
Proof.
  induction 1 as [|n ns Hn Hnd IH]; simpl; constructor; auto.
  rewrite list_elem_of_In, in_map_iff. intros (n' & Heq & Hin).
  apply weekLabel_inj in Heq. subst n'. apply Hn, list_elem_of_In, Hin.
Qed.



(** C9. Every [PlayerUsageData] produced by the fold step (which always
    produces one) has its weeks sorted strictly ascending by the numeric
    week, hence without duplicates, each of the form ["Uke n"], and every
    key of [usage] is a key of [players]. *)
Theorem foldUsage_invariant (sel : list Z) (ms : list Match) :
  exists r, foldUsage sel ms = Ok r
    /\ (exists ns, weeks r = map (fun n => "Uke " ++ Js.toString n) ns
                   /\ StronglySorted Z.lt ns)
    /\ NoDup (weeks r)
    /\ (forall k, is_Some (usage r !! k) -> is_Some (players r !! k)).
Proof.
  unfold foldUsage.
  destruct (forEach_foldMatch_ok sel ms (mkAcc ∅ ∅ [])) as (a & -> & Hdom & Hne & Hnd).
  { split; [reflexivity|]. split; simpl; [|constructor].
    intros k v. rewrite lookup_empty. discriminate. }
  eexists. split; [reflexivity|]. simpl. repeat split.
  - exists (sort_by (fun a b => a - b) (acc_weekSet a)). split; [reflexivity|].
    apply sort_by_strict, Hnd.
  - apply NoDup_map_weekLabel. rewrite sort_by_perm. exact Hnd.
  - intros k Hk. apply elem_of_dom. rewrite <- Hdom. apply elem_of_dom, Hk.
Qed.

(** Numeric, not lexical, order: week 9 comes before week 10. *)
Example foldUsage_weeks_numeric :
  weeks <$> (match foldUsage [1]
                     [mkMatch 1 10 (mkSide 1 "H" []) (mkSide 2 "A" []);
                      mkMatch 2 9 (mkSide 3 "B" []) (mkSide 1 "H" []);
                      mkMatch 3 10 (mkSide 1 "H" []) (mkSide 4 "C" [])]
             with Ok r => Some r | Err _ => None end)
  = Some ["Uke 9"; "Uke 10"].
Proof. vm_compute. reflexivity. Qed.

(** ** The handlers *)

(** *** Code that leaves the React state alone *)

Create HintDb tracker.

Lemma sp_ret {A : Type} (a : A) : state_preserving (mret a).
Proof. intros c. reflexivity. Qed.

Lemma sp_throw {A : Type} msg : state_preserving (@throw A msg).
Proof. intros c. reflexivity. Qed.

Lemma sp_settled {A : Type} (r : result A) : state_preserving (settled r).
Proof. intros c. reflexivity. Qed.

Lemma sp_get_world : state_preserving get_world.
Proof. intros c. reflexivity. Qed.

Lemma sp_modify_world f : state_preserving (modify_world f).
Proof. intros c. reflexivity. Qed.

Lemma sp_bind {A B : Type} (m : M A) (f : A -> M B) :
  state_preserving m -> (forall a, state_preserving (f a)) ->
  state_preserving (m ≫= f).
Proof.
  intros Hm Hf c. unfold mbind, M_bind. specialize (Hm c).
  destruct (m c) as [[a|e] c1]; simpl in *; [|exact Hm].
  rewrite Hf. exact Hm.
Qed.

#[local] Hint Resolve sp_ret sp_throw sp_settled sp_get_world sp_modify_world : tracker.
#[local] Hint Extern 2 (state_preserving (_ ≫= _)) => apply sp_bind; [|intros ?] : tracker.
#[local] Hint Extern 3 (state_preserving (match ?x with _ => _ end)) => destruct x : tracker.

Section Preservation.

Context (env : Env) (token : string).

Lemma sp_dateNow : state_preserving (dateNow env).
Proof. intros c. reflexivity. Qed.

Lemma sp_log e : state_preserving (log e).
Proof. apply sp_modify_world. Qed.

Hint Resolve sp_dateNow sp_log : tracker.

Lemma sp_db_request e : state_preserving (db_request env e).
Proof. unfold db_request. auto 10 with tracker. Qed.

Hint Resolve sp_db_request : tracker.

Lemma sp_getFromDB {T : Type} (s : Store T) k : state_preserving (getFromDB env s k).
Proof. unfold getFromDB. auto 10 with tracker. Qed.

Lemma sp_setToDB {T : Type} (s : Store T) item : state_preserving (setToDB env s item).
Proof. unfold setToDB. auto 10 with tracker. Qed.

Lemma sp_apiFetch {T : Type} (remote : list Event -> Request -> Outcome T) u :
  state_preserving (apiFetch token remote u).
Proof. unfold apiFetch, fetch. auto 10 with tracker. Qed.

Hint Resolve sp_getFromDB sp_setToDB sp_apiFetch : tracker.

Lemma sp_fetchMatchList comp id : state_preserving (fetchMatchList env token comp id).
Proof. unfold fetchMatchList, json. auto 20 with tracker. Qed.

Lemma sp_fetchMatchDetail id : state_preserving (fetchMatchDetail env token id).
Proof. unfold fetchMatchDetail, json. auto 20 with tracker. Qed.

Lemma run_all_state {A : Type} (tasks : list (M A)) :
  Forall state_preserving tasks ->
  forall c, fst (snd (run_all tasks c)) = fst c.
Proof.
  induction 1 as [|t tasks Ht _ IH]; intros c; simpl; [reflexivity|].
  specialize (Ht c). destruct (t c) as [r c1]. specialize (IH c1).
  destruct (run_all tasks c1) as [rs c2]. simpl in *. congruence.
Qed.

End Preservation.

(** *** [Promise.all] *)

Lemma rejections_In {A : Type} (rs : list (result A)) : forall i j msg,
  In (j, msg) (rejections i rs) -> In (Err msg) rs.
Proof.
  induction rs as [|[a|e] rs IH]; intros i j msg; simpl; [tauto| |].
  - intros H. right. eapply IH, H.
  - intros [[= _ ->]|H]; [auto|]. right. eapply IH, H.
Qed.

Lemma rejections_nonempty {A : Type} (rs : list (result A)) : forall i,
  Exists rejected rs -> rejections i rs <> [].
Proof.
  induction rs as [|[a|e] rs IH]; intros i H; inversion H; subst; simpl.
  - discriminate.
  - apply IH. assumption.
  - discriminate.
  - discriminate.
Qed.

Lemma earliest_In rank (l : list (nat * string)) : forall best,
  match fold_left
          (fun best x =>
             match best with
             | None => Some x
             | Some b => if Nat.ltb (rank (fst x)) (rank (fst b)) then Some x else Some b
             end) l best with
  | Some x => In x l \/ best = Some x
  | None => l = [] /\ best = None
  end.
Proof.
  induction l as [|x l IH]; intros best; simpl.
  - destruct best; auto.
  - match goal with |- context [fold_left ?f l ?b] => specialize (IH b) end.
    destruct (fold_left _ l _) as [y|].
    + destruct IH as [H|H]; [auto|].
      destruct best as [b|]; [|injection H as <-; auto].
      destruct (Nat.ltb _ _); injection H as <-; auto.
    + destruct IH as [_ H]. destruct best as [b|]; [|discriminate].
      destruct (Nat.ltb _ _); discriminate.
Qed.

(** When a promise of the list rejects, [Promise.all] rejects with the
    message of one of the rejected promises. *)
Lemma join_all_rejects {A : Type} rank (rs : list (result A)) :
  Exists rejected rs -> exists msg, join_all rank rs = Err msg /\ In (Err msg) rs.
Proof.
  intros H. unfold join_all, earliest.
  pose proof (earliest_In rank (rejections 0 rs) None) as He.
  destruct (fold_left _ _ _) as [[j msg]|].
  - exists msg. split; [reflexivity|].
    destruct He as [He|He]; [|discriminate]. eapply rejections_In, He.
  - destruct He as [He _]. exfalso. eapply rejections_nonempty; eauto.
Qed.

(** *** Validation and the stages of the analysis *)

Lemma guard_passes_test st :
  guard_passes st ->
  Z.eqb (JsSet.size (selectedTeamIds st)) 0 || negb (truthy_nullable (competitionId st))
  = false.
Proof.
  intros [Hs Hc]. rewrite Hc. simpl. rewrite orb_false_r.
  apply Z.eqb_neq. unfold JsSet.size. destruct (selectedTeamIds st); [congruence|].
  simpl. lia.
Qed.

Section Analysis.

Context (env : Env) (token : string).

Lemma handleFetchPlayerUsage_start st w :
  guard_passes st ->
  handleFetchPlayerUsage env token (st, w)
  = try_catch_finally
      (allMatchIds ← stageC env token (selectedTeamIds st) (competitionId st);
       if Z.eqb (JsSet.size allMatchIds) 0 then setPlayerUsage (Some emptyUsage)
       else stageD env token (selectedTeamIds st) allMatchIds)
      (fun msg => setError (Some msg))
      (setLoading "usage" false)
      (analysis_start st w).
Proof.
  intros Hg. unfold handleFetchPlayerUsage, mbind, M_bind, get_state. simpl.
  rewrite (guard_passes_test st Hg). reflexivity.
Qed.

Lemma promise_all_run {A : Type} (tasks : list (M A)) c :
  promise_all env tasks c
  = (join_all (settle_rank env (history (snd (snd (run_all tasks c)))))
       (fst (run_all tasks c)),
     snd (run_all tasks c)).
Proof. unfold promise_all. destruct (run_all tasks c). reflexivity. Qed.

Lemma stageC_tasks_sp comp ids :
  Forall state_preserving (map (fetchMatchList env token comp) ids).
Proof.
  apply Forall_forall. intros t Ht.
  apply list_elem_of_In, in_map_iff in Ht as (id & <- & _). apply sp_fetchMatchList.
Qed.

Lemma stageD_tasks_sp ids :
  Forall state_preserving (map (fetchMatchDetail env token) ids).
Proof.
  apply Forall_forall. intros t Ht.
  apply list_elem_of_In, in_map_iff in Ht as (id & <- & _). apply sp_fetchMatchDetail.
Qed.

Lemma stageC_state ids comp c : fst (snd (stageC env token ids comp c)) = fst c.
Proof.
  unfold stageC, mbind, M_bind. rewrite promise_all_run.
  pose proof (run_all_state _ (stageC_tasks_sp comp ids) c) as H.
  destruct (join_all _ _); simpl; exact H.
Qed.

(** C8. Without a selected team or without a competition the analysis
    stops at once with the validation message: the world is the same (no
    request, no cache access, the session timer is not re-armed) and the
    state differs in [error] only. *)
Theorem validation_guard (st : State) (w : World) :
  selectedTeamIds st = [] \/ competitionId st = None ->
  handleFetchPlayerUsage env token (st, w)
  = (Ok tt,
     (with_error (Some "Please select at least one team and a competition.") st, w)).
Proof.
  intros H. unfold handleFetchPlayerUsage, mbind, M_bind, get_state. simpl.
  destruct H as [-> | ->]; simpl.
  - reflexivity.
  - rewrite orb_true_r. reflexivity.
Qed.

(** C7. When the set of match ids after Stage C is empty the analysis
    ends with the empty result [{players:{}, weeks:[], usage:{}}]; the
    world is the one Stage C left: no Stage D request and no further cache
    operation. *)
Theorem empty_union_short_circuit (st : State) (w : World) :
  guard_passes st ->
  fst (stageC env token (selectedTeamIds st) (competitionId st) (analysis_start st w))
  = Ok [] ->
  handleFetchPlayerUsage env token (st, w)
  = (Ok tt,
     (with_loading "usage" false
        (with_playerUsage (Some (mkUsage ∅ [] ∅))
           (with_error None (with_loading "usage" true st))),
      snd (snd (stageC env token (selectedTeamIds st) (competitionId st)
                  (analysis_start st w))))).
Proof.
  intros Hg HC.
  rewrite handleFetchPlayerUsage_start by exact Hg.
  pose proof (stageC_state (selectedTeamIds st) (competitionId st) (analysis_start st w)) as Hst.
  unfold try_catch_finally, mbind at 1, M_bind at 1.
  destruct (stageC env token _ _ _) as [r [st2 w2]]. simpl in *. subst r st2.
  reflexivity.
Qed.

(** C3. When a promise of Stage C rejects, or Stage C is through and a
    promise of Stage D rejects, the analysis ends with no result:
    [playerUsage] is [null] and [error] is the message of a rejected
    promise of that stage. *)
Theorem analysis_aborts_on_rejection (st : State) (w : World) :
  guard_passes st ->
  Exists rejected (stageC_outcomes env token st w)
  \/ (exists ids,
        fst (stageC env token (selectedTeamIds st) (competitionId st) (analysis_start st w))
        = Ok ids
        /\ Exists rejected
             (stageD_outcomes env token ids
                (snd (stageC env token (selectedTeamIds st) (competitionId st)
                        (analysis_start st w))))) ->
  let st' := fst (snd (handleFetchPlayerUsage env token (st, w))) in
  playerUsage st' = None
  /\ exists msg, error st' = Some msg
       /\ (In (Err msg) (stageC_outcomes env token st w)
           \/ exists ids,
                fst (stageC env token (selectedTeamIds st) (competitionId st)
                       (analysis_start st w)) = Ok ids
                /\ In (Err msg)
                     (stageD_outcomes env token ids
                        (snd (stageC env token (selectedTeamIds st) (competitionId st)
                                (analysis_start st w))))).
Proof.
  intros Hg H st'. subst st'. rewrite handleFetchPlayerUsage_start by exact Hg.
  pose proof (stageC_state (selectedTeamIds st) (competitionId st) (analysis_start st w)) as HstC.
  unfold try_catch_finally, mbind, M_bind.
  destruct H as [HC|(ids & HC & HD)].
  - (* a promise of Stage C rejects *)
    unfold stageC, mbind, M_bind in *. rewrite promise_all_run in *.
    fold (stageC_outcomes env token st w) in *.
    destruct (join_all_rejects
                (settle_rank env
                   (history (snd (snd (run_all
                      (map (fetchMatchList env token (competitionId st)) (selectedTeamIds st))
                      (analysis_start st w))))))
                _ HC) as (msg & Hj & Hin).
    rewrite Hj in *. simpl in *. rewrite HstC. simpl. split; [reflexivity|].
    exists msg. auto.
  - (* Stage C is through and a promise of Stage D rejects *)
    destruct (stageC env token _ _ _) as [r c2] eqn:EC. simpl in HC, HD, HstC. subst r.
    assert (Hne : Z.eqb (JsSet.size ids) 0 = false).
    { apply Z.eqb_neq. unfold JsSet.size. destruct ids; [inversion HD|simpl; lia]. }
    rewrite Hne. unfold stageD, mbind, M_bind. rewrite promise_all_run.
    pose proof (run_all_state _ (stageD_tasks_sp ids) c2) as HstD.
    fold (stageD_outcomes env token ids c2) in *.
    destruct (join_all_rejects
                (settle_rank env
                   (history (snd (snd (run_all (map (fetchMatchDetail env token) ids) c2)))))
                _ HD) as (msg & Hj & Hin).
    rewrite Hj. simpl. rewrite HstD, HstC. simpl. split; [reflexivity|].
    exists msg. split; [reflexivity|]. right. exists ids. auto.
Qed.

End Analysis.

(** *** The cache-or-fetch paths *)

Ltac unfold_path :=
  unfold searchForClubs, selectClub, handleSelectClub, effect_fetchTeams,
    effect_resetCompetition, fetchTeams, fetchMatchList, fetchMatchDetail,
    try_catch_finally, getFromDB, setToDB, db_request, apiFetch, fetch, json,
    onActivity, setLoading, setError, setClubs, setAllTeams, setSelectedClub,
    setClubQuery, setPlayerUsage, setSelectedTeamIds, setCompetitionId, log,
    modify_state, modify_world, get_world, get_state, settled, throw, dateNow,
    mbind, M_bind, mret, M_ret.

(** Case analysis on the scrutinees of the goal, innermost first. *)
Ltac case_path :=
  repeat (cbn beta iota delta [fst snd history db negb] in *;
          match goal with
          | |- context [match ?x with _ => _ end] =>
              lazymatch x with
              | context [match _ with _ => _ end] => fail
              | _ => destruct x eqn:?
              end
          end).

Ltac contradict_outcome H :=
  match goal with
  | E : _ = Answer _ |- _ => rewrite E in H
  end;
  repeat match goal with
         | E : negb (ok _) = _ |- _ => rewrite E in H; clear E
         | E : json_body _ = _ |- _ => rewrite E in H; clear E
         end;
  simpl in H; discriminate H.

Ltac settle_path H :=
  unfold_path; case_path;
  cbn [fst snd history db store_name store_get key club_search_store teams_store
       match_lists_store match_details_store] in *;
  first [ split; reflexivity | contradict_outcome H ].

Section Paths.

Context (env : Env) (token : string).

Lemma searchForClubs_failed st w :
  fetch_failed (net_clubs env (clubs_fetch_point st w) (clubs_request st)) = true ->
  cache_untouched w (snd (snd (searchForClubs env (st, w)))).
Proof.
  unfold clubs_fetch_point, clubs_request, fetch_failed, cache_untouched.
  intros H. settle_path H.
Qed.

Lemma fetchTeams_failed club st w :
  fetch_failed (net_teams env (teams_fetch_point token club w) (teams_request token club))
  = true ->
  cache_untouched w (snd (snd (fetchTeams env token club (st, w)))).
Proof.
  unfold teams_fetch_point, teams_request, fetch_failed, cache_untouched.
  intros H. settle_path H.
Qed.

Lemma fetchMatchList_failed comp id st w :
  fetch_failed (net_matches env (matches_fetch_point token comp id w)
                  (matches_request token comp id)) = true ->
  cache_untouched w (snd (snd (fetchMatchList env token comp id (st, w)))).
Proof.
  unfold matches_fetch_point, matches_request, fetch_failed, cache_untouched.
  intros H. settle_path H.
Qed.

Lemma fetchMatchDetail_failed id st w :
  fetch_failed (net_match env (match_fetch_point token id w) (match_request token id))
  = true ->
  cache_untouched w (snd (snd (fetchMatchDetail env token id (st, w)))).
Proof.
  unfold match_fetch_point, match_request, fetch_failed, cache_untouched.
  intros H. settle_path H.
Qed.

(** On a cache miss a failed fetch rejects the promise of the path, which
    stops right at the request. *)
Lemma fetchMatchList_rejects comp id st w :
  db_fault env (tail (matches_fetch_point token comp id w)) = None ->
  cache_hit (clock env (tail (matches_fetch_point token comp id w)))
    (match_lists (db w) !! KStr (Js.toString id ++ "-" ++ show_nullable comp)) = None ->
  fetch_failed (net_matches env (matches_fetch_point token comp id w)
                  (matches_request token comp id)) = true ->
  exists msg,
    fetchMatchList env token comp id (st, w)
    = (Err msg, (st, mkWorld (db w) (matches_fetch_point token comp id w))).
Proof.
  unfold matches_fetch_point, matches_request, fetch_failed. simpl tail.
  intros Hf Hc H. unfold_path. cbn [fst snd history db store_name store_get match_lists_store].
  rewrite Hf. cbn [fst snd history db]. rewrite Hc.
  destruct (net_matches env _ _) as [msg|r]; cbn [fst snd history db]; [eauto|].
  destruct (ok r); simpl in *; [|eauto].
  destruct (json_body r); simpl in *; [discriminate|eauto].
Qed.

Lemma fetchMatchDetail_rejects id st w :
  db_fault env (tail (match_fetch_point token id w)) = None ->
  cache_hit (clock env (tail (match_fetch_point token id w)))
    (match_details (db w) !! KNum id) = None ->
  fetch_failed (net_match env (match_fetch_point token id w) (match_request token id))
  = true ->
  exists msg,
    fetchMatchDetail env token id (st, w)
    = (Err msg, (st, mkWorld (db w) (match_fetch_point token id w))).
Proof.
  unfold match_fetch_point, match_request, fetch_failed. simpl tail.
  intros Hf Hc H. unfold_path. cbn [fst snd history db store_name store_get match_details_store].
  rewrite Hf. cbn [fst snd history db]. rewrite Hc.
  destruct (net_match env _ _) as [msg|r]; cbn [fst snd history db]; [eauto|].
  destruct (ok r); simpl in *; [|eauto].
  destruct (json_body r); simpl in *; [discriminate|eauto].
Qed.

(** C4. A failed fetch never writes a cache entry: on each of the four
    cache-or-fetch paths (club search, teams, match list, match detail),
    when the fetch of the path fails (transport failure, response not ok,
    or body that does not parse) the stores are unchanged and no [put] was
    issued; a write therefore only follows an ok response whose body
    parsed. *)
Theorem failed_fetch_never_writes (st : State) (w : World) :
  (fetch_failed (net_clubs env (clubs_fetch_point st w) (clubs_request st)) = true ->
   cache_untouched w (snd (snd (searchForClubs env (st, w)))))
  /\ (forall club,
        fetch_failed (net_teams env (teams_fetch_point token club w)
                        (teams_request token club)) = true ->
        cache_untouched w (snd (snd (fetchTeams env token club (st, w)))))
  /\ (forall comp id,
        fetch_failed (net_matches env (matches_fetch_point token comp id w)
                        (matches_request token comp id)) = true ->
        cache_untouched w (snd (snd (fetchMatchList env token comp id (st, w)))))
  /\ (forall id,
        fetch_failed (net_match env (match_fetch_point token id w)
                        (match_request token id)) = true ->
        cache_untouched w (snd (snd (fetchMatchDetail env token id (st, w))))).
Proof.
  split; [apply searchForClubs_failed|].
  split; [intros club; apply fetchTeams_failed|].
  split; [intros comp id; apply fetchMatchList_failed|].
  intros id; apply fetchMatchDetail_failed.
Qed.

End Paths.

(** *** Selecting a club *)

Lemma cache_hit_Some {T : Type} now (cached : option (CacheItem T)) d :
  cache_hit now cached = Some d -> exists item, cached = Some item /\ d = data item.
Proof.
  unfold cache_hit. destruct (isCacheValid now cached); [|discriminate].
  destruct cached as [item|]; simpl; [|discriminate]. intros [= <-]. eauto.
Qed.

Section Select.

Context (env : Env) (token : string).



End Select.


(** ** The statements at sample inputs *)

Lemma parseClubs_dedup_witness :
  example_raw = ([mkRaw 1 "A"] ++ mkRaw 1 "B" :: [mkRaw 0 "C"; mkRaw 2 ""])%list
  /\ club_ok (mkRaw 1 "B") = true
  /\ In (mkClub 1 "B") (parseClubs example_raw).
Proof.
  split; [reflexivity|]. split; [reflexivity|].
  refine (proj1 (proj2 (proj2 (proj2 (parseClubs_dedup example_raw))))
            [mkRaw 1 "A"] (mkRaw 1 "B") [mkRaw 0 "C"; mkRaw 2 ""] eq_refl eq_refl _).
  intros r' [<-|[<-|[]]]; discriminate.
Defined.


Lemma sample_guard_passes : guard_passes sample_state.
Proof. split; [discriminate|reflexivity]. Defined.

Lemma analysis_aborts_on_rejection_witness :
  guard_passes sample_state
  /\ Exists rejected (stageC_outcomes env_down "t0k" sample_state fresh_world)
  /\ playerUsage (fst (snd (handleFetchPlayerUsage env_down "t0k" (sample_state, fresh_world))))
     = None.
Proof.
  assert (Hex : Exists rejected (stageC_outcomes env_down "t0k" sample_state fresh_world)).
  { apply Exists_cons_hd. reflexivity. }
  split; [exact sample_guard_passes|]. split; [exact Hex|].
  exact (proj1 (analysis_aborts_on_rejection env_down "t0k" sample_state fresh_world
                  sample_guard_passes (or_introl Hex))).
Defined.

Lemma failed_fetch_never_writes_witness :
  fetch_failed (net_matches env_down (matches_fetch_point "t0k" (Some 3) 11 fresh_world)
                  (matches_request "t0k" (Some 3) 11)) = true
  /\ cache_untouched fresh_world
       (snd (snd (fetchMatchList env_down "t0k" (Some 3) 11 (sample_state, fresh_world)))).
Proof.
  split; [reflexivity|].
  exact (proj1 (proj2 (proj2 (failed_fetch_never_writes env_down "t0k" sample_state fresh_world)))
           (Some 3) 11 eq_refl).
Defined.

Lemma empty_union_short_circuit_witness :
  guard_passes sample_state
  /\ fst (stageC env_no_match "t0k" (selectedTeamIds sample_state)
            (competitionId sample_state) (analysis_start sample_state fresh_world))
     = Ok []
  /\ playerUsage (fst (snd (handleFetchPlayerUsage env_no_match "t0k"
                              (sample_state, fresh_world))))
     = Some (mkUsage ∅ [] ∅).
Proof.
  split; [exact sample_guard_passes|]. split; [vm_compute; reflexivity|].
  rewrite (empty_union_short_circuit env_no_match "t0k" sample_state fresh_world
             sample_guard_passes); [reflexivity|vm_compute; reflexivity].
Defined.

Lemma validation_guard_witness :
  selectedTeamIds sample_state_no_team = []
  /\ handleFetchPlayerUsage env_down "t0k" (sample_state_no_team, fresh_world)
     = (Ok tt,
        (with_error (Some "Please select at least one team and a competition.")
           sample_state_no_team,
         fresh_world)).
Proof.
  split; [reflexivity|].
  exact (validation_guard env_down "t0k" sample_state_no_team fresh_world
           (or_introl eq_refl)).
Defined.


(** * Further properties of the code *)

(** ** [src/db.ts] *)

Lemma club_search_store_lawful : lawful_store club_search_store.
Proof. repeat split; intros; try destruct d; reflexivity. Qed.

Lemma teams_store_lawful : lawful_store teams_store.
Proof. repeat split; intros; try destruct d; reflexivity. Qed.

Lemma match_lists_store_lawful : lawful_store match_lists_store.
Proof. repeat split; intros; try destruct d; reflexivity. Qed.

Lemma match_details_store_lawful : lawful_store match_details_store.
Proof. repeat split; intros; try destruct d; reflexivity. Qed.

Section Database.

Context (env : Env).

(** X1. Writing an item and reading its key back returns that very item,
    whatever was stored under the key before, when neither request
    fails. *)
Theorem setToDB_getFromDB_roundtrip {T : Type} (s : Store T) (item : CacheItem T)
    (st : State) (w : World) :
  lawful_store s ->
  db_fault env (EvDbPut (store_name s) (key item) :: history w) = None ->
  db_fault env (EvDbGet (store_name s) (key item)
                  :: EvDbPut (store_name s) (key item) :: history w) = None ->
  (setToDB env s item ≫= fun _ => getFromDB env s (key item)) (st, w)
  = (Ok (Some item),
     (st, mkWorld (store_set s (<[key item := item]> (store_get s (db w))) (db w))
            (EvDbGet (store_name s) (key item)
               :: EvDbPut (store_name s) (key item) :: history w))).
Proof.
  intros (Hgs & _ & _) Hput Hget. unfold_path. cbn [fst snd history db].
  rewrite Hput. cbn [fst snd history db]. rewrite Hget. cbn [fst snd history db].
  rewrite Hgs, lookup_insert_eq. reflexivity.
Qed.

(** X2. A write touches one key of one store: the other keys of the store
    and the other stores are as before, and a failed write changes
    nothing. *)
Theorem setToDB_frame {T : Type} (s : Store T) (item : CacheItem T)
    (st : State) (w : World) :
  lawful_store s ->
  let r := setToDB env s item (st, w) in
  let w' := snd (snd r) in
  (forall k, k <> key item -> store_get s (db w') !! k = store_get s (db w) !! k)
  /\ db w' = store_set s (store_get s (db w')) (db w)
  /\ (is_err (fst r) = true -> db w' = db w)
  /\ fst (snd r) = st.
Proof.
  intros (Hgs & Hsg & Hss). unfold_path. cbn [fst snd history db].
  destruct (db_fault env _); cbn [fst snd history db is_err].
  - repeat split; auto; rewrite Hsg; reflexivity.
  - repeat split.
    + intros k Hk. rewrite Hgs. apply lookup_insert_ne. congruence.
    + rewrite Hgs. reflexivity.
    + discriminate.
Qed.

End Database.

Lemma setToDB_getFromDB_roundtrip_witness :
  (setToDB env_down match_details_store (mkCacheItem (KNum 5) both_selected_match 1000)
     ≫= fun _ => getFromDB env_down match_details_store (KNum 5))
    (sample_state, fresh_world)
  = (Ok (Some (mkCacheItem (KNum 5) both_selected_match 1000)),
     (sample_state,
      mkWorld (mkDB ∅ ∅ ∅ (<[KNum 5 := mkCacheItem (KNum 5) both_selected_match 1000]> ∅))
        [EvDbGet "match-details" (KNum 5); EvDbPut "match-details" (KNum 5)])).
Proof.
  exact (setToDB_getFromDB_roundtrip env_down match_details_store
           (mkCacheItem (KNum 5) both_selected_match 1000) sample_state fresh_world
           match_details_store_lawful eq_refl eq_refl).
Defined.

Lemma setToDB_frame_witness :
  match_details
    (db (snd (snd (setToDB env_down match_details_store
                     (mkCacheItem (KNum 5) both_selected_match 1000)
                     (sample_state, fresh_world)))))
    !! KNum 6 = None.
Proof.
  refine (proj1 (setToDB_frame env_down match_details_store
                   (mkCacheItem (KNum 5) both_selected_match 1000) sample_state fresh_world
                   match_details_store_lawful) (KNum 6) _).
  discriminate.
Defined.

(** ** [src/api.ts] *)






(** ** [src/utils.ts] *)




(** ** [Tracker.tsx]: the cache-or-fetch paths and the handlers, continued *)

Lemma cache_hit_fresh {T : Type} now (item : CacheItem T) :
  now - timestamp item < 3600000 -> cache_hit now (Some item) = Some (data item).
Proof.
  intros H. unfold cache_hit, isCacheValid.
  replace (Z.ltb _ _) with true; [reflexivity|].
  symmetry. apply Z.ltb_lt. exact H.
Qed.

Section Hits.
Context (env : Env) (token : string).

Lemma fetchMatchList_hit comp id item st w :
  db_fault env (EvDbGet "match-lists" (KStr (Js.toString id ++ "-" ++ show_nullable comp))
                  :: history w) = None ->
  match_lists (db w) !! KStr (Js.toString id ++ "-" ++ show_nullable comp) = Some item ->
  clock env (EvDbGet "match-lists" (KStr (Js.toString id ++ "-" ++ show_nullable comp))
               :: history w) - timestamp item < 3600000 ->
  fetchMatchList env token comp id (st, w)
  = (Ok (data item),
     (st, mkWorld (db w)
            (EvDbGet "match-lists" (KStr (Js.toString id ++ "-" ++ show_nullable comp))
               :: history w))).
Proof.
  intros Hf Hl Hc. unfold_path.
  cbn [fst snd history db store_name store_get match_lists_store].
  rewrite Hf. cbn [fst snd history db]. rewrite Hl, (cache_hit_fresh _ _ Hc). reflexivity.
Qed.

Lemma fetchMatchDetail_hit id item st w :
  db_fault env (EvDbGet "match-details" (KNum id) :: history w) = None ->
  match_details (db w) !! KNum id = Some item ->
  clock env (EvDbGet "match-details" (KNum id) :: history w) - timestamp item < 3600000 ->
  fetchMatchDetail env token id (st, w)
  = (Ok (data item),
     (st, mkWorld (db w) (EvDbGet "match-details" (KNum id) :: history w))).
Proof.
  intros Hf Hl Hc. unfold_path.
  cbn [fst snd history db store_name store_get match_details_store].
  rewrite Hf. cbn [fst snd history db]. rewrite Hl, (cache_hit_fresh _ _ Hc). reflexivity.
Qed.

(** X5. A fresh entry is served from the cache: a match list or a match
    detail found in its store, younger than an hour, is returned as it is
    after the one read of the store, with no request to the remote and no
    write. *)
Theorem fresh_entry_skips_fetch (st : State) (w : World) :
  (forall comp id item,
     let k := KStr (Js.toString id ++ "-" ++ show_nullable comp) in
     let h := EvDbGet "match-lists" k :: history w in
     db_fault env h = None ->
     match_lists (db w) !! k = Some item ->
     clock env h - timestamp item < 3600000 ->
     fetchMatchList env token comp id (st, w) = (Ok (data item), (st, mkWorld (db w) h)))
  /\ (forall id item,
        let h := EvDbGet "match-details" (KNum id) :: history w in
        db_fault env h = None ->
        match_details (db w) !! KNum id = Some item ->
        clock env h - timestamp item < 3600000 ->
        fetchMatchDetail env token id (st, w) = (Ok (data item), (st, mkWorld (db w) h))).
Proof.
  split.
  - intros comp id item k h. apply fetchMatchList_hit.
  - intros id item h. apply fetchMatchDetail_hit.
Qed.

(** X6. The club search and the team list behave alike: a fresh entry
    becomes the displayed list, the error is cleared, the loading flag is
    dropped, and the only things done are re-arming the session and
    reading the store. *)
Theorem fresh_entry_skips_fetch_handlers (st : State) (w : World) :
  (forall item,
     let k := KStr (clubQuery st ++ "-" ++ seasonId st) in
     let h := EvDbGet "club-search" k :: EvActivity :: history w in
     clubQuery st <> "" ->
     db_fault env h = None ->
     club_search (db w) !! k = Some item ->
     clock env h - timestamp item < 3600000 ->
     searchForClubs env (st, w)
     = (Ok tt,
        (with_loading "clubs" false
           (with_clubs (data item) (with_error None (with_loading "clubs" true st))),
         mkWorld (db w) h)))
  /\ (forall club item,
        let h := EvDbGet "teams" (KNum (club_id (val club))) :: EvActivity :: history w in
        db_fault env h = None ->
        teams (db w) !! KNum (club_id (val club)) = Some item ->
        clock env h - timestamp item < 3600000 ->
        fetchTeams env token club (st, w)
        = (Ok tt,
           (with_loading "teams" false
              (with_allTeams (data item) (with_error None (with_loading "teams" true st))),
            mkWorld (db w) h))).
Proof.
  split.
  - intros item k h Hq Hf Hl Hc. subst k h. unfold_path. cbn [fst snd].
    destruct (clubQuery st) eqn:Eq; [congruence|]. cbn [Js.truthy_str negb].
    cbn [fst snd history db store_name store_get club_search_store].
    rewrite Hf. cbn [fst snd history db]. rewrite Hl, (cache_hit_fresh _ _ Hc).
    cbn [fst snd]. rewrite <- Eq. reflexivity.
  - intros club item h Hf Hl Hc. subst h. unfold_path.
    cbn [fst snd history db store_name store_get teams_store].
    rewrite Hf. cbn [fst snd history db]. rewrite Hl, (cache_hit_fresh _ _ Hc). reflexivity.
Qed.
End Hits.

Section Compose.
Context (env : Env) (token : string).

(** X7. A match detail fetched on a miss is stored under its id with the
    time of the write, and asking for it again within the hour returns the
    same detail from the cache: the second call adds one read of the store
    and no request. *)
Theorem fetchMatchDetail_twice (id : Z) (d : Match) (st : State) (w : World) :
  let h1 := EvDbGet "match-details" (KNum id) :: history w in
  let h2 := EvFetch (match_request token id) :: h1 in
  let h3 := EvDbPut "match-details" (KNum id) :: h2 in
  let h4 := EvDbGet "match-details" (KNum id) :: h3 in
  let item := mkCacheItem (KNum id) d (clock env h2) in
  db_fault env h1 = None ->
  cache_hit (clock env h1) (match_details (db w) !! KNum id) = None ->
  answers_ok (net_match env) h2 (match_request token id) d ->
  db_fault env h3 = None ->
  db_fault env h4 = None ->
  clock env h4 - clock env h2 < 3600000 ->
  fetchMatchDetail env token id (st, w)
  = (Ok d, (st, mkWorld (store_set match_details_store
                           (<[KNum id := item]> (match_details (db w))) (db w)) h3))
  /\ (fetchMatchDetail env token id ≫= fun _ => fetchMatchDetail env token id) (st, w)
     = (Ok d, (st, mkWorld (store_set match_details_store
                              (<[KNum id := item]> (match_details (db w))) (db w)) h4)).
Proof.
  intros h1 h2 h3 h4 item Hf1 Hmiss (resp & Hnet & Hok & Hjson) Hf3 Hf4 Hfresh.
  subst h1 h2 h3 h4.
  assert (Hfirst : fetchMatchDetail env token id (st, w)
    = (Ok d, (st, mkWorld (store_set match_details_store
                             (<[KNum id := item]> (match_details (db w))) (db w))
                     (EvDbPut "match-details" (KNum id)
                        :: EvFetch (match_request token id)
                        :: EvDbGet "match-details" (KNum id) :: history w)))).
  { unfold match_request in *. unfold_path.
    cbn [fst snd history db store_name store_get match_details_store key].
    rewrite Hf1. cbn [fst snd history db]. rewrite Hmiss. cbn [fst snd history db].
    rewrite Hnet. cbn [fst snd history db]. rewrite Hok. cbn [negb fst snd history db].
    rewrite Hjson. cbn [fst snd history db]. rewrite Hf3. reflexivity. }
  split; [exact Hfirst|].
  unfold mbind at 1, M_bind at 1. rewrite Hfirst.
  rewrite (fetchMatchDetail_hit env token id item); [reflexivity|exact Hf4| |exact Hfresh].
  cbn. apply lookup_insert_eq.
Qed.
End Compose.

(** history growth *)
Lemma hg_ret {A} (a : A) : history_growing (mret a).
Proof. intros c. exists []. reflexivity. Qed.
Lemma hg_throw {A} msg : history_growing (@throw A msg).
Proof. intros c. exists []. reflexivity. Qed.
Lemma hg_settled {A} (r : result A) : history_growing (settled r).
Proof. intros c. exists []. reflexivity. Qed.
Lemma hg_get_world : history_growing get_world.
Proof. intros c. exists []. reflexivity. Qed.
Lemma hg_get_state : history_growing get_state.
Proof. intros c. exists []. reflexivity. Qed.
Lemma hg_modify_state f : history_growing (modify_state f).
Proof. intros c. exists []. reflexivity. Qed.
Lemma hg_log e : history_growing (log e).
Proof. intros c. exists [e]. reflexivity. Qed.

Lemma hg_bind {A B} (m : M A) (f : A -> M B) :
  history_growing m -> (forall a, history_growing (f a)) -> history_growing (m ≫= f).
Proof.
  intros Hm Hf c. unfold mbind, M_bind. destruct (Hm c) as [e1 H1].
  destruct (m c) as [[a|e] c1]; simpl in *; [|eauto].
  destruct (Hf a c1) as [e2 H2]. exists (e2 ++ e1)%list.
  rewrite H2, H1. apply app_assoc.
Qed.

Lemma hg_try_catch_finally body handler fin :
  history_growing body -> (forall e, history_growing (handler e)) -> history_growing fin ->
  history_growing (try_catch_finally body handler fin).
Proof.
  intros Hb Hh Hf c. unfold try_catch_finally. destruct (Hb c) as [e1 H1].
  destruct (body c) as [[a|e] c1]; simpl in *.
  - destruct (Hf c1) as [e2 H2]. exists (e2 ++ e1)%list. rewrite H2, H1. apply app_assoc.
  - destruct (Hh e c1) as [e2 H2]. destruct (handler e c1) as [[a|e'] c2]; simpl in *.
    + destruct (Hf c2) as [e3 H3]. exists (e3 ++ e2 ++ e1)%list.
      rewrite H3, H2, H1, !app_assoc. reflexivity.
    + destruct (Hf c2) as [e3 H3]. exists (e3 ++ e2 ++ e1)%list.
      destruct (fin c2) as [[a|e''] c3]; simpl in *; rewrite H3, H2, H1, !app_assoc; reflexivity.
Qed.

Create HintDb hg.
#[local] Hint Resolve hg_ret hg_throw hg_settled hg_get_world hg_get_state hg_modify_state hg_log : hg.
#[local] Hint Extern 2 (history_growing (_ ≫= _)) => apply hg_bind; [|intros ?] : hg.
#[local] Hint Extern 2 (history_growing (try_catch_finally _ _ _)) =>
  apply hg_try_catch_finally; [|intros ?|] : hg.
#[local] Hint Extern 3 (history_growing (match ?x with _ => _ end)) => destruct x : hg.
#[local] Hint Extern 3 (history_growing (if ?x then _ else _)) => destruct x : hg.

Section Growth.
Context (env : Env) (token : string).

Lemma hg_dateNow : history_growing (dateNow env).
Proof. intros c. exists []. reflexivity. Qed.

Lemma hg_setLoading k b : history_growing (setLoading k b). Proof. apply hg_modify_state. Qed.
Lemma hg_setError e : history_growing (setError e). Proof. apply hg_modify_state. Qed.
Lemma hg_setClubs l : history_growing (setClubs l). Proof. apply hg_modify_state. Qed.
Lemma hg_setAllTeams l : history_growing (setAllTeams l). Proof. apply hg_modify_state. Qed.
Lemma hg_setPlayerUsage u : history_growing (setPlayerUsage u). Proof. apply hg_modify_state. Qed.
Lemma hg_onActivity : history_growing onActivity. Proof. apply hg_log. Qed.

Hint Resolve hg_dateNow hg_setLoading hg_setError hg_setClubs hg_setAllTeams hg_setPlayerUsage hg_onActivity : hg.

Lemma hg_db_request e : history_growing (db_request env e).
Proof. unfold db_request. auto 10 with hg. Qed.
Hint Resolve hg_db_request : hg.

Lemma hg_getFromDB {T} (s : Store T) k : history_growing (getFromDB env s k).
Proof. unfold getFromDB. auto 10 with hg. Qed.

Lemma hg_setToDB {T} (s : Store T) item : history_growing (setToDB env s item).
Proof.
  unfold setToDB. apply hg_bind; [auto with hg|]. intros _ c. exists []. reflexivity.
Qed.

Lemma hg_fetch {T} (remote : list Event -> Request -> Outcome T) req :
  history_growing (fetch remote req).
Proof. unfold fetch. auto 10 with hg. Qed.

Lemma hg_apiFetch {T} (remote : list Event -> Request -> Outcome T) u :
  history_growing (apiFetch token remote u).
Proof. apply hg_fetch. Qed.

Lemma hg_json {T} (r : Resp T) : history_growing (json r).
Proof. apply hg_settled. Qed.

Hint Resolve hg_getFromDB hg_setToDB hg_fetch hg_apiFetch hg_json : hg.

Lemma hg_fetchMatchList comp id : history_growing (fetchMatchList env token comp id).
Proof. unfold fetchMatchList. auto 20 with hg. Qed.

Lemma hg_fetchMatchDetail id : history_growing (fetchMatchDetail env token id).
Proof. unfold fetchMatchDetail. auto 20 with hg. Qed.

Lemma hg_run_all {A} (tasks : list (M A)) :
  Forall history_growing tasks ->
  forall c, exists evs, history (snd (snd (run_all tasks c))) = (evs ++ history (snd c))%list.
Proof.
  induction 1 as [|t tasks Ht _ IH]; intros c; simpl; [exists []; reflexivity|].
  destruct (Ht c) as [e1 H1]. destruct (t c) as [r c1]. destruct (IH c1) as [e2 H2].
  destruct (run_all tasks c1) as [rs c2]. simpl in *. exists (e2 ++ e1)%list.
  rewrite H2, H1. apply app_assoc.
Qed.

Lemma hg_promise_all {A} (tasks : list (M A)) :
  Forall history_growing tasks -> history_growing (promise_all env tasks).
Proof.
  intros H c. rewrite promise_all_run. simpl. apply hg_run_all, H.
Qed.

Lemma hg_stageC ids comp : history_growing (stageC env token ids comp).
Proof.
  unfold stageC. apply hg_bind; [|auto with hg].
  apply hg_promise_all, Forall_forall. intros t Ht.
  apply list_elem_of_In, in_map_iff in Ht as (id & <- & _). apply hg_fetchMatchList.
Qed.

Lemma hg_stageD sel ids : history_growing (stageD env token sel ids).
Proof.
  unfold stageD. apply hg_bind; [|auto 10 with hg].
  apply hg_promise_all, Forall_forall. intros t Ht.
  apply list_elem_of_In, in_map_iff in Ht as (id & <- & _). apply hg_fetchMatchDetail.
Qed.

Hint Resolve hg_stageC hg_stageD : hg.

(** X8. The club search, the team list and the analysis never reach
    the cache or the network without re-arming the session first: either
    the history is as it was, or its first new event is the activity
    signal. *)
Theorem requests_rearm_session (st : State) (w : World) :
  rearmed w (snd (snd (searchForClubs env (st, w))))
  /\ (forall club, rearmed w (snd (snd (fetchTeams env token club (st, w)))))
  /\ rearmed w (snd (snd (handleFetchPlayerUsage env token (st, w)))).
Proof.
  split; [|split].
  - unfold searchForClubs, mbind at 1, M_bind at 1, get_state. cbn [fst snd].
    destruct (negb (Js.truthy_str (clubQuery st))); [left; reflexivity|].
    right. unfold mbind at 1, M_bind at 1, onActivity, log, modify_world. cbn [fst snd].
    match goal with |- context [(?m ≫= ?f) ?c] =>
      assert (H : history_growing (m ≫= f)) by (cbv zeta; auto 30 with hg) end.
    match goal with |- context [(?m ≫= ?f) ?c] => destruct (H c) as [evs Hevs] end.
    exists evs. exact Hevs.
  - intros club. right. unfold fetchTeams, mbind at 1, M_bind at 1, onActivity, log, modify_world.
    cbn [fst snd].
    match goal with |- context [(?m ≫= ?f) ?c] =>
      assert (H : history_growing (m ≫= f)) by (auto 30 with hg) end.
    match goal with |- context [(?m ≫= ?f) ?c] => destruct (H c) as [evs Hevs] end.
    exists evs. exact Hevs.
  - unfold handleFetchPlayerUsage, mbind at 1, M_bind at 1, get_state. cbn [fst snd].
    destruct (_ || _); [left; reflexivity|].
    right. unfold mbind at 1, M_bind at 1, onActivity, log, modify_world. cbn [fst snd].
    match goal with |- context [(?m ≫= ?f) ?c] =>
      assert (H : history_growing (m ≫= f)) by (auto 30 with hg) end.
    match goal with |- context [(?m ≫= ?f) ?c] => destruct (H c) as [evs Hevs] end.
    exists evs. exact Hevs.
Qed.
End Growth.

#[local] Hint Resolve hg_dateNow hg_setLoading hg_setError hg_setClubs hg_setAllTeams
  hg_setPlayerUsage hg_onActivity hg_db_request hg_getFromDB hg_setToDB hg_fetch
  hg_apiFetch hg_json hg_stageC hg_stageD : hg.

Lemma foldUsage_ok sel ms : exists r, foldUsage sel ms = Ok r.
Proof.
  unfold foldUsage.
  destruct (forEach_foldMatch_ok sel ms (mkAcc ∅ ∅ [])) as (a & -> & _); [|eauto].
  split; [reflexivity|]. split; simpl; [|constructor].
  intros k v. rewrite lookup_empty. discriminate.
Qed.

Section Outcomes.
Context (env : Env) (token : string).

(** X9. An analysis that passes validation never rejects, always drops
    [loading.usage], and ends either with an error and no result or with
    a result and no error; the selection it ran on is untouched. *)
Theorem analysis_outcome (st : State) (w : World) :
  guard_passes st ->
  let r := handleFetchPlayerUsage env token (st, w) in
  let st' := fst (snd r) in
  fst r = Ok tt
  /\ loading st' !! "usage" = Some false
  /\ ((exists msg, error st' = Some msg /\ playerUsage st' = None)
      \/ (error st' = None /\ exists u, playerUsage st' = Some u))
  /\ selectedTeamIds st' = selectedTeamIds st
  /\ competitionId st' = competitionId st
  /\ allTeams st' = allTeams st
  /\ selectedClub st' = selectedClub st.
Proof.
  intros Hg r st'. subst r st'. rewrite handleFetchPlayerUsage_start by exact Hg.
  pose proof (stageC_state env token (selectedTeamIds st) (competitionId st) (analysis_start st w)) as HstC.
  unfold try_catch_finally, mbind, M_bind.
  destruct (stageC env token _ _ _) as [[ids|e] [st2 w2]]; simpl in HstC; subst st2.
  - destruct (Z.eqb (JsSet.size ids) 0).
    + cbn. rewrite lookup_insert_eq. repeat split; auto. right. eauto.
    + unfold stageD, mbind, M_bind. rewrite promise_all_run.
      pose proof (run_all_state _ (stageD_tasks_sp env token ids)
                    (with_playerUsage None (with_error None (with_loading "usage" true st)), w2)) as HstD.
      destruct (run_all _ _) as [rs [st3 w3]]. simpl in HstD. subst st3. cbn [fst snd].
      destruct (join_all _ rs) as [details|e].
      * destruct (foldUsage_ok (selectedTeamIds st) details) as [u Hu].
        unfold settled. rewrite Hu. cbn. rewrite lookup_insert_eq. repeat split; auto.
        right. eauto.
      * cbn. rewrite lookup_insert_eq. repeat split; auto. left. eauto.
  - cbn. rewrite lookup_insert_eq. repeat split; auto. left. eauto.
Qed.

(** X10. The analysis stops at validation exactly when no team is
    selected or the competition id is missing or zero (the value of the
    placeholder option): then only [error] changes; otherwise requests
    are made. *)
Theorem validation_exact (st : State) (w : World) :
  let failing := selectedTeamIds st = [] \/ competitionId st = None
                 \/ competitionId st = Some 0 in
  (failing ->
   handleFetchPlayerUsage env token (st, w)
   = (Ok tt,
      (with_error (Some "Please select at least one team and a competition.") st, w)))
  /\ (history (snd (snd (handleFetchPlayerUsage env token (st, w)))) = history w
      <-> failing).
Proof.
  intros failing. subst failing.
  assert (Hfail : selectedTeamIds st = [] \/ competitionId st = None
                  \/ competitionId st = Some 0 ->
            handleFetchPlayerUsage env token (st, w)
            = (Ok tt,
               (with_error (Some "Please select at least one team and a competition.") st, w))).
  { intros H. unfold handleFetchPlayerUsage, mbind, M_bind, get_state. simpl.
    destruct H as [-> | [-> | ->]]; simpl; rewrite ?orb_true_r; reflexivity. }
  split; [exact Hfail|]. split.
  - intros Hh.
    destruct (selectedTeamIds st) as [|x l] eqn:Es; [auto|].
    destruct (competitionId st) as [cid|] eqn:Ec; [|auto].
    destruct (Z.eq_dec cid 0) as [->|Hne]; [auto|]. exfalso.
    assert (Hg : guard_passes st).
    { split; [congruence|]. rewrite Ec. simpl. unfold Js.truthy_num.
      apply negb_true_iff, Z.eqb_neq, Hne. }
    rewrite handleFetchPlayerUsage_start in Hh by exact Hg.
    match type of Hh with context [try_catch_finally ?b ?h ?f ?c] =>
      assert (H : history_growing (try_catch_finally b h f)) by (auto 30 with hg);
      destruct (H c) as [evs Hevs] end.
    rewrite Hevs in Hh. simpl in Hh.
    apply (f_equal (@length Event)) in Hh. rewrite length_app in Hh. simpl in Hh. lia.
  - intros H. rewrite (Hfail H). reflexivity.
Qed.
End Outcomes.

Section Search.
Context (env : Env).

(** X11. The club search does nothing on an empty query. Otherwise it
    never rejects, drops [loading.clubs], and ends in one of three ways:
    an error with an empty list; the cached list, the stores unchanged; or
    the parsed list of an ok answer, which is then also what the cache
    holds under the key of the query, an empty list included. *)
Theorem searchForClubs_outcome (st : State) (w : World) :
  (clubQuery st = "" -> searchForClubs env (st, w) = (Ok tt, (st, w)))
  /\ (clubQuery st <> "" ->
      let r := searchForClubs env (st, w) in
      let st' := fst (snd r) in
      let w' := snd (snd r) in
      let k := KStr (clubQuery st ++ "-" ++ seasonId st) in
      fst r = Ok tt
      /\ loading st' !! "clubs" = Some false
      /\ ((exists msg, error st' = Some msg /\ clubs st' = [])
          \/ (error st' = None
              /\ exists item, club_search (db w) !! k = Some item
                              /\ clubs st' = data item /\ db w' = db w)
          \/ (error st' = None
              /\ exists raw ts,
                   answers_ok (net_clubs env) (clubs_fetch_point st w) (clubs_request st) raw
                   /\ clubs st' = parseClubs raw
                   /\ club_search (db w') !! k
                      = Some (mkCacheItem k (parseClubs raw) ts)))).
Proof.
  split.
  - intros Hq. unfold searchForClubs, mbind, M_bind, get_state. cbn [fst snd].
    rewrite Hq. reflexivity.
  - intros Hq r st' w' k. subst r st' w' k.
    unfold clubs_fetch_point, clubs_request, answers_ok.
    unfold_path. cbn [fst snd].
    destruct (clubQuery st) as [|c0 q0] eqn:Eq; [congruence|]. cbn [Js.truthy_str negb].
    rewrite <- Eq. clear Eq Hq c0 q0.
    case_path.
    all: cbn [fst snd history db store_name store_get key club_search_store] in *.
    all: cbn [error clubs loading with_loading with_error with_clubs].
    all: rewrite ?lookup_insert_eq.
    all: split; [reflexivity|]; split; [reflexivity|].
    all: try (left; eexists; split; reflexivity).
    + right. left. split; [reflexivity|].
      match goal with H : cache_hit _ _ = Some _ |- _ =>
        apply cache_hit_Some in H as (item & Hi & ->) end.
      exists item. auto.
    + right. right. split; [reflexivity|]. eexists _, _. split; [|split; [reflexivity|]].
      * eexists. split; [eassumption|]. split; [|eassumption].
        match goal with H : negb (ok _) = false |- _ => apply negb_false_iff in H; exact H end.
      * cbn. apply lookup_insert_eq.
Qed.
End Search.

Lemma JsSet_of_list_acc l : forall acc,
  NoDup acc ->
  NoDup (fold_left (fun s x => JsSet.add x s) l acc)
  /\ (forall x, In x (fold_left (fun s x => JsSet.add x s) l acc) <-> In x acc \/ In x l).
Proof.
  induction l as [|y l IH]; intros acc Hnd; simpl.
  - split; [exact Hnd|]. tauto.
  - destruct (IH (JsSet.add y acc) (JsSet_add_NoDup y acc Hnd)) as [H1 H2].
    split; [exact H1|]. intros x. rewrite H2. unfold JsSet.add.
    destruct (JsSet.has y acc) eqn:E.
    + apply JsSet_has_In in E. split; [tauto|]. intros [H|[<-|H]]; auto.
    + rewrite in_app_iff. simpl. tauto.
Qed.

Lemma join_all_Ok {A : Type} rank (rs : list (result A)) ls :
  join_all rank rs = Ok ls -> ls = fulfilled rs /\ forall l, In l ls <-> In (Ok l) rs.
Proof.
  unfold join_all. destruct (earliest rank (rejections 0 rs)) as [[j msg]|]; [discriminate|].
  intros [= <-]. split; [reflexivity|]. intros l.
  induction rs as [|[a|e] rs IH]; simpl; [tauto| |].
  - rewrite IH. split; intros [H|H]; auto; [left; congruence|]. injection H as <-. auto.
  - rewrite IH. split; [auto|]. intros [H|H]; [discriminate|auto].
Qed.

Section Union.
Context (env : Env) (token : string).

(** X12. The match ids Stage C hands to Stage D have no repetition and
    are exactly the ids of the match lists of the selected teams: a match
    between two selected teams is fetched once. *)
Theorem stageC_match_ids (teamIds : list Z) (comp : option Z) (c : Cfg) (ids : list Z) :
  fst (stageC env token teamIds comp c) = Ok ids ->
  NoDup ids
  /\ (forall x, In x ids <->
        exists l, In (Ok l) (fst (run_all (map (fetchMatchList env token comp) teamIds) c))
                  /\ In x (map stub_id l)).
Proof.
  unfold stageC, mbind, M_bind. rewrite promise_all_run. cbn [fst snd].
  destruct (join_all _ _) as [ls|e] eqn:Ej; [|discriminate].
  cbn [fst]. intros [= <-]. apply join_all_Ok in Ej as [_ Hin].
  destruct (JsSet_of_list_acc (map stub_id (concat ls)) [] (NoDup_nil_2)) as [H1 H2].
  split; [exact H1|]. intros x. unfold JsSet.of_list. rewrite H2. simpl.
  rewrite in_map_iff. split.
  - intros [[]|(s & <- & Hs)]. apply in_concat in Hs as (l & Hl & Hs).
    exists l. split; [apply Hin, Hl|]. apply in_map, Hs.
  - intros (l & Hl & Hx). right. apply in_map_iff in Hx as (s & <- & Hs).
    exists s. split; [reflexivity|]. apply in_concat. exists l. split; [apply Hin, Hl|exact Hs].
Qed.
End Union.

Lemma JsSet_delete_spec x s : forall y, In y (JsSet.delete x s) <-> In y s /\ y <> x.
Proof.
  intros y. unfold JsSet.delete. rewrite filter_In, negb_true_iff, Z.eqb_neq.
  intuition congruence.
Qed.

Lemma NoDup_List_filter {A : Type} (f : A -> bool) (l : list A) :
  NoDup l -> NoDup (List.filter f l).
Proof.
  induction 1 as [|a l Ha Hnd IH]; simpl; [constructor|].
  destruct (f a); [|exact IH]. constructor; [|exact IH].
  rewrite list_elem_of_In, filter_In. rewrite list_elem_of_In in Ha. tauto.
Qed.

Lemma JsSet_delete_absent x s : ~ In x s -> JsSet.delete x s = s.
Proof.
  unfold JsSet.delete. induction s as [|y s IH]; simpl; [reflexivity|].
  intros H. destruct (Z.eqb x y) eqn:E; simpl.
  - apply Z.eqb_eq in E. subst y. exfalso. auto.
  - f_equal. apply IH. tauto.
Qed.

Lemma JsSet_delete_length x s :
  NoDup s -> In x s -> Z.of_nat (length (JsSet.delete x s)) = Z.of_nat (length s) - 1.
Proof.
  induction 1 as [|y s Hy Hnd IH]; intros Hin; [destruct Hin|].
  unfold JsSet.delete in *. simpl. destruct (Z.eqb x y) eqn:E; simpl.
  - apply Z.eqb_eq in E. subst y.
    change (List.filter _ s) with (JsSet.delete x s).
    rewrite JsSet_delete_absent; [lia|]. rewrite <- list_elem_of_In. exact Hy.
  - apply Z.eqb_neq in E. destruct Hin as [->|Hin]; [congruence|].
    rewrite Nat2Z.inj_succ, IH by exact Hin. lia.
Qed.

Lemma JsSet_has_false x s : JsSet.has x s = false <-> ~ In x s.
Proof.
  rewrite <- JsSet_has_In. destruct (JsSet.has x s); split; congruence.
Qed.

Lemma JsSet_has_ext s s' x :
  (In x s' <-> In x s) -> JsSet.has x s' = JsSet.has x s.
Proof.
  intros H. destruct (JsSet.has x s) eqn:E.
  - apply JsSet_has_In, H, JsSet_has_In, E.
  - apply JsSet_has_false. rewrite H. apply JsSet_has_false, E.
Qed.

(** X13. Ticking a team toggles its membership in the selection and
    nothing else: the other teams stay as they are, the selection stays
    without repetition, its size moves by one, and no other part of the
    state or of the world changes. *)
Theorem handleTeamSelection_toggles (teamId : Z) (st : State) (w : World) :
  NoDup (selectedTeamIds st) ->
  let r := handleTeamSelection teamId (st, w) in
  let st' := fst (snd r) in
  r = (Ok tt, (with_selectedTeamIds (selectedTeamIds st') st, w))
  /\ NoDup (selectedTeamIds st')
  /\ JsSet.has teamId (selectedTeamIds st') = negb (JsSet.has teamId (selectedTeamIds st))
  /\ (forall x, x <> teamId ->
        JsSet.has x (selectedTeamIds st') = JsSet.has x (selectedTeamIds st))
  /\ JsSet.size (selectedTeamIds st')
     = if JsSet.has teamId (selectedTeamIds st)
       then JsSet.size (selectedTeamIds st) - 1
       else JsSet.size (selectedTeamIds st) + 1.
Proof.
  intros Hnd r st'. subst r st'.
  unfold handleTeamSelection, modify_state. cbn [fst snd selectedTeamIds with_selectedTeamIds].
  split; [reflexivity|].
  destruct (JsSet.has teamId (selectedTeamIds st)) eqn:E; cbn [negb].
  - apply JsSet_has_In in E. repeat split.
    + unfold JsSet.delete. apply NoDup_List_filter, Hnd.
    + apply JsSet_has_false. rewrite JsSet_delete_spec. tauto.
    + intros x Hx. apply JsSet_has_ext. rewrite JsSet_delete_spec. tauto.
    + unfold JsSet.size. apply JsSet_delete_length; assumption.
  - repeat split.
    + apply JsSet_add_NoDup, Hnd.
    + apply JsSet_has_In. unfold JsSet.add. rewrite E, in_app_iff. simpl. auto.
    + intros x Hx. apply JsSet_has_ext. unfold JsSet.add. rewrite E, in_app_iff. simpl.
      intuition congruence.
    + unfold JsSet.size, JsSet.add. rewrite E, length_app. simpl. lia.
Qed.

(** ** The fold step, continued *)

Lemma recordPlayer_records m team a p a' :
  acc_wf a ->
  recordPlayer m team a p = Ok a' ->
  is_Some (acc_players a' !! Js.toString (personId p))
  /\ has_cell (acc_usage a') (Js.toString (personId p)) (weekLabel (week m))
  /\ (forall k, is_Some (acc_players a !! k) -> is_Some (acc_players a' !! k))
  /\ (forall k lbl, has_cell (acc_usage a) k lbl -> has_cell (acc_usage a') k lbl)
  /\ acc_weekSet a' = acc_weekSet a.
Proof.
  intros (Hdom & Hne & Hnd). unfold recordPlayer, has_cell.
  set (pid := Js.toString (personId p)).
  destruct (truthy_prop (acc_players a !! pid)) eqn:Ht; simpl.
  - destruct (acc_usage a !! pid) as [row|] eqn:Hrow; [|discriminate].
    intros [= <-]. simpl. split; [|split; [|split; [|split]]].
    + destruct (acc_players a !! pid); [eauto|discriminate].
    + exists (<[weekLabel (week m) := side_name team]> row).
      rewrite !lookup_insert_eq. eauto.
    + auto.
    + intros k lbl (row0 & Hr0 & Hl0). destruct (decide (k = pid)) as [->|Hk].
      * rewrite Hrow in Hr0. injection Hr0 as <-. eexists.
        rewrite lookup_insert_eq. split; [reflexivity|].
        rewrite lookup_insert. case_decide; eauto.
      * exists row0. rewrite lookup_insert_ne by congruence. auto.
    + reflexivity.
  - rewrite lookup_insert_eq. intros [= <-]. simpl.
    assert (Hnone : acc_players a !! pid = None) by (apply truthy_prop_false_None; auto).
    assert (Hunone : acc_usage a !! pid = None).
    { apply not_elem_of_dom. rewrite Hdom. apply not_elem_of_dom, Hnone. }
    split; [|split; [|split; [|split]]].
    + rewrite lookup_insert_eq. eauto.
    + eexists. rewrite !lookup_insert_eq. eauto.
    + intros k Hk. rewrite lookup_insert. case_decide; eauto.
    + intros k lbl (row0 & Hr0 & Hl0). exists row0.
      rewrite !lookup_insert_ne by congruence. auto.
    + reflexivity.
Qed.

Lemma forEach_recordPlayer_records m team ps : forall a a',
  acc_wf a ->
  forEach (recordPlayer m team) ps a = Ok a' ->
  (forall p, In p ps ->
     is_Some (acc_players a' !! Js.toString (personId p))
     /\ has_cell (acc_usage a') (Js.toString (personId p)) (weekLabel (week m)))
  /\ (forall k, is_Some (acc_players a !! k) -> is_Some (acc_players a' !! k))
  /\ (forall k lbl, has_cell (acc_usage a) k lbl -> has_cell (acc_usage a') k lbl)
  /\ acc_weekSet a' = acc_weekSet a.
Proof.
  induction ps as [|p ps IH]; intros a a' Hwf; simpl.
  - intros [= <-]. split; [intros q []|]. auto.
  - destruct (recordPlayer m team a p) as [a1|e] eqn:E; [|discriminate]. intros Hrest.
    destruct (recordPlayer_ok m team a p Hwf) as (a1' & E' & Hwf1 & _).
    rewrite E in E'. injection E' as <-.
    destruct (recordPlayer_records m team a p a1 Hwf E) as (Hp & Hc & Hmp & Hmc & Hw).
    destruct (IH a1 a' Hwf1 Hrest) as (Hall & Hmp' & Hmc' & Hw').
    split; [|split; [|split]]; [|auto|auto|congruence].
    intros q [<-|Hq]; [auto|apply Hall, Hq].
Qed.

Lemma JsSet_add_In x y s : In x (JsSet.add y s) <-> x = y \/ In x s.
Proof.
  unfold JsSet.add. destruct (JsSet.has y s) eqn:E.
  - apply JsSet_has_In in E. split; [auto|]. intros [->|H]; auto.
  - rewrite in_app_iff. simpl. intuition.
Qed.

Lemma foldMatch_records sel a m a' :
  acc_wf a ->
  foldMatch sel a m = Ok a' ->
  (forall side, selected_side sel m = Some side ->
     In (week m) (acc_weekSet a')
     /\ forall p, In p (players_of side) ->
          is_Some (acc_players a' !! Js.toString (personId p))
          /\ has_cell (acc_usage a') (Js.toString (personId p)) (weekLabel (week m)))
  /\ (forall k, is_Some (acc_players a !! k) -> is_Some (acc_players a' !! k))
  /\ (forall k lbl, has_cell (acc_usage a) k lbl -> has_cell (acc_usage a') k lbl)
  /\ (forall x, In x (acc_weekSet a) -> In x (acc_weekSet a')).
Proof.
  intros Hwf. unfold foldMatch, selected_side.
  destruct (JsSet.has (side_id (chosenSide sel m)) sel); simpl.
  - intros H. apply forEach_recordPlayer_records in H as (Hall & Hmp & Hmc & Hw).
    + simpl in *. split; [|split; [|split]]; [|auto|auto|].
      * intros side [= <-]. split; [|exact Hall].
        rewrite Hw. apply JsSet_add_In. auto.
      * intros x Hx. rewrite Hw. apply JsSet_add_In. auto.
    + destruct Hwf as (H1 & H2 & H3). split; [exact H1|]. split; [exact H2|].
      simpl. apply JsSet_add_NoDup, H3.
  - intros [= <-]. split; [discriminate|]. auto.
Qed.

Lemma forEach_foldMatch_records sel ms : forall a a',
  acc_wf a ->
  forEach (foldMatch sel) ms a = Ok a' ->
  (forall m side, In m ms -> selected_side sel m = Some side ->
     In (week m) (acc_weekSet a')
     /\ forall p, In p (players_of side) ->
          is_Some (acc_players a' !! Js.toString (personId p))
          /\ has_cell (acc_usage a') (Js.toString (personId p)) (weekLabel (week m)))
  /\ (forall k, is_Some (acc_players a !! k) -> is_Some (acc_players a' !! k))
  /\ (forall k lbl, has_cell (acc_usage a) k lbl -> has_cell (acc_usage a') k lbl)
  /\ (forall x, In x (acc_weekSet a) -> In x (acc_weekSet a')).
Proof.
  induction ms as [|m ms IH]; intros a a' Hwf; simpl.
  - intros [= <-]. split; [intros ? ? []|]. auto.
  - destruct (foldMatch sel a m) as [a1|e] eqn:E; [|discriminate]. intros Hrest.
    destruct (foldMatch_ok sel a m Hwf) as (a1' & E' & Hwf1).
    rewrite E in E'. injection E' as <-.
    destruct (foldMatch_records sel a m a1 Hwf E) as (Hm & Hmp & Hmc & Hmw).
    destruct (IH a1 a' Hwf1 Hrest) as (Hall & Hmp' & Hmc' & Hmw').
    split; [|split; [|split]]; [|auto|auto|auto].
    intros m0 side [<-|Hin] Hside; [|eapply Hall; eauto].
    destruct (Hm side Hside) as [Hw Hp]. split; [auto|].
    intros p Hp0. destruct (Hp p Hp0). auto.
Qed.

Lemma empty_acc_wf : acc_wf (mkAcc ∅ ∅ []).
Proof.
  split; [reflexivity|]. split; simpl; [|constructor].
  intros k v. rewrite lookup_empty. discriminate.
Qed.

(** X14. Nothing is lost in the fold: every match whose chosen side is a
    selected team contributes its week to [weeks], and every player of
    that side has a name in [players] and a cell in [usage] under the
    label of that week. *)
Theorem foldUsage_complete (sel : list Z) (ms : list Match) :
  exists r, foldUsage sel ms = Ok r
    /\ forall m side, In m ms -> selected_side sel m = Some side ->
         In (weekLabel (week m)) (weeks r)
         /\ forall p, In p (players_of side) ->
              is_Some (players r !! Js.toString (personId p))
              /\ has_cell (usage r) (Js.toString (personId p)) (weekLabel (week m)).
Proof.
  unfold foldUsage.
  destruct (forEach_foldMatch_ok sel ms (mkAcc ∅ ∅ []) empty_acc_wf) as (a & E & _).
  rewrite E. eexists. split; [reflexivity|]. intros m side Hm Hside. simpl.
  destruct (forEach_foldMatch_records sel ms _ a empty_acc_wf E) as (Hall & _).
  destruct (Hall m side Hm Hside) as [Hw Hp]. split; [|exact Hp].
  apply in_map. rewrite <- list_elem_of_In, sort_by_perm, list_elem_of_In. exact Hw.
Qed.

Lemma recordPlayer_origin m team a p a' :
  recordPlayer m team a p = Ok a' ->
  (forall k row lbl name,
     acc_usage a' !! k = Some row -> row !! lbl = Some name ->
     (exists row0, acc_usage a !! k = Some row0 /\ row0 !! lbl = Some name)
     \/ (k = Js.toString (personId p) /\ lbl = weekLabel (week m) /\ name = side_name team))
  /\ (forall k name,
        acc_players a' !! k = Some name ->
        acc_players a !! k = Some name
        \/ (k = Js.toString (personId p) /\ name = firstName p ++ " " ++ lastName p))
  /\ acc_weekSet a' = acc_weekSet a.
Proof.
  unfold recordPlayer. set (pid := Js.toString (personId p)).
  set (a0 := if negb (truthy_prop (acc_players a !! pid)) then _ else a).
  destruct (acc_usage a0 !! pid) as [row0|] eqn:Hrow0; [|discriminate].
  intros [= <-]. simpl.
  assert (Hp0 : forall k name, acc_players a0 !! k = Some name ->
                  acc_players a !! k = Some name
                  \/ (k = pid /\ name = firstName p ++ " " ++ lastName p)).
  { subst a0. intros k name. destruct (negb _); simpl; [|auto].
    rewrite lookup_insert. case_decide; [intros [= <-]|]; auto. }
  assert (Hu0 : forall k row, acc_usage a0 !! k = Some row ->
                  acc_usage a !! k = Some row \/ row = ∅).
  { subst a0. intros k row. destruct (negb _); simpl; [|auto].
    rewrite lookup_insert. case_decide; [intros [= <-]|]; auto. }
  assert (Hw0 : acc_weekSet a0 = acc_weekSet a) by (subst a0; destruct (negb _); reflexivity).
  split; [|split; [exact Hp0|exact Hw0]].
  intros k row lbl name Hr Hl. rewrite lookup_insert in Hr. case_decide.
  - subst k. injection Hr as <-. rewrite lookup_insert in Hl. case_decide.
    + injection Hl as <-. auto.
    + apply Hu0 in Hrow0 as [Hrow0| ->]; [eauto|].
      rewrite lookup_empty in Hl. discriminate.
  - apply Hu0 in Hr as [Hr| ->]; [eauto|]. rewrite lookup_empty in Hl. discriminate.
Qed.

Lemma forEach_recordPlayer_origin m team ps : forall a a',
  forEach (recordPlayer m team) ps a = Ok a' ->
  (forall k row lbl name,
     acc_usage a' !! k = Some row -> row !! lbl = Some name ->
     (exists row0, acc_usage a !! k = Some row0 /\ row0 !! lbl = Some name)
     \/ (exists p, In p ps /\ k = Js.toString (personId p)
                   /\ lbl = weekLabel (week m) /\ name = side_name team))
  /\ (forall k name,
        acc_players a' !! k = Some name ->
        acc_players a !! k = Some name
        \/ (exists p, In p ps /\ k = Js.toString (personId p)
                      /\ name = firstName p ++ " " ++ lastName p))
  /\ acc_weekSet a' = acc_weekSet a.
Proof.
  induction ps as [|p ps IH]; intros a a'; simpl.
  - intros [= <-]. split; [eauto|]. split; [auto|reflexivity].
  - destruct (recordPlayer m team a p) as [a1|e] eqn:E; [|discriminate]. intros Hrest.
    destruct (recordPlayer_origin m team a p a1 E) as (Hu & Hp & Hw).
    destruct (IH a1 a' Hrest) as (Hu' & Hp' & Hw').
    split; [|split; [|congruence]].
    + intros k row lbl name Hr Hl.
      destruct (Hu' k row lbl name Hr Hl) as [(row1 & Hr1 & Hl1)|(q & Hq & H)].
      * destruct (Hu k row1 lbl name Hr1 Hl1) as [H|H]; [auto|]. right. exists p. tauto.
      * right. exists q. tauto.
    + intros k name Hk. destruct (Hp' k name Hk) as [H|(q & Hq & H)].
      * destruct (Hp k name H) as [H'|H']; [auto|]. right. exists p. tauto.
      * right. exists q. tauto.
Qed.

Lemma forEach_foldMatch_origin sel ms : forall a a',
  forEach (foldMatch sel) ms a = Ok a' ->
  (forall k row lbl name,
     acc_usage a' !! k = Some row -> row !! lbl = Some name ->
     (exists row0, acc_usage a !! k = Some row0 /\ row0 !! lbl = Some name)
     \/ (exists m side p, In m ms /\ selected_side sel m = Some side
                          /\ In p (players_of side)
                          /\ k = Js.toString (personId p)
                          /\ lbl = weekLabel (week m) /\ name = side_name side))
  /\ (forall k name,
        acc_players a' !! k = Some name ->
        acc_players a !! k = Some name
        \/ (exists m side p, In m ms /\ selected_side sel m = Some side
                             /\ In p (players_of side)
                             /\ k = Js.toString (personId p)
                             /\ name = firstName p ++ " " ++ lastName p))
  /\ (forall x, In x (acc_weekSet a') ->
        In x (acc_weekSet a)
        \/ exists m side, In m ms /\ selected_side sel m = Some side /\ x = week m).
Proof.
  induction ms as [|m ms IH]; intros a a'; simpl.
  - intros [= <-]. split; [eauto|]. split; auto.
  - destruct (foldMatch sel a m) as [a1|e] eqn:E; [|discriminate]. intros Hrest.
    destruct (IH a1 a' Hrest) as (Hu' & Hp' & Hw'). clear IH Hrest.
    assert (Hstep :
      (forall k row lbl name,
         acc_usage a1 !! k = Some row -> row !! lbl = Some name ->
         (exists row0, acc_usage a !! k = Some row0 /\ row0 !! lbl = Some name)
         \/ (exists side p, selected_side sel m = Some side /\ In p (players_of side)
                            /\ k = Js.toString (personId p)
                            /\ lbl = weekLabel (week m) /\ name = side_name side))
      /\ (forall k name,
            acc_players a1 !! k = Some name ->
            acc_players a !! k = Some name
            \/ (exists side p, selected_side sel m = Some side /\ In p (players_of side)
                               /\ k = Js.toString (personId p)
                               /\ name = firstName p ++ " " ++ lastName p))
      /\ (forall x, In x (acc_weekSet a1) ->
            In x (acc_weekSet a)
            \/ exists side, selected_side sel m = Some side /\ x = week m)).
    { unfold foldMatch, selected_side in *.
      destruct (JsSet.has (side_id (chosenSide sel m)) sel); simpl in E.
      - apply forEach_recordPlayer_origin in E as (Hu & Hp & Hw). simpl in *.
        split; [|split].
        + intros k row lbl name Hr Hl.
          destruct (Hu k row lbl name Hr Hl) as [H|(p & Hp0 & H)]; [auto|].
          right. exists (chosenSide sel m), p. tauto.
        + intros k name Hk. destruct (Hp k name Hk) as [H|(p & Hp0 & H)]; [auto|].
          right. exists (chosenSide sel m), p. tauto.
        + intros x Hx. rewrite Hw in Hx. apply JsSet_add_In in Hx as [->|Hx]; [|auto].
          right. eauto.
      - injection E as <-. split; [eauto|]. split; auto. }
    destruct Hstep as (Hu & Hp & Hw). split; [|split].
    + intros k row lbl name Hr Hl.
      destruct (Hu' k row lbl name Hr Hl) as [(row1 & Hr1 & Hl1)|(m0 & side & p & Hm0 & H)].
      * destruct (Hu k row1 lbl name Hr1 Hl1) as [H|(side & p & H)]; [auto|].
        right. exists m, side, p. tauto.
      * right. exists m0, side, p. tauto.
    + intros k name Hk.
      destruct (Hp' k name Hk) as [H|(m0 & side & p & Hm0 & H)].
      * destruct (Hp k name H) as [H'|(side & p & H')]; [auto|].
        right. exists m, side, p. tauto.
      * right. exists m0, side, p. tauto.
    + intros x Hx. destruct (Hw' x Hx) as [H|(m0 & side & Hm0 & H)].
      * destruct (Hw x H) as [H'|(side & H')]; [auto|]. right. exists m, side. tauto.
      * right. exists m0, side. tauto.
Qed.

(** X15. Nothing is invented in the fold: every cell of [usage], every
    name of [players] and every label of [weeks] comes from a player of
    the chosen, selected side of one of the folded matches, with the week
    of that match and the name of that side. *)
Theorem foldUsage_sound (sel : list Z) (ms : list Match) :
  exists r, foldUsage sel ms = Ok r
    /\ (forall k row lbl name,
          usage r !! k = Some row -> row !! lbl = Some name ->
          exists m side p, In m ms /\ selected_side sel m = Some side
                           /\ In p (players_of side)
                           /\ k = Js.toString (personId p)
                           /\ lbl = weekLabel (week m) /\ name = side_name side)
    /\ (forall k name,
          players r !! k = Some name ->
          exists m side p, In m ms /\ selected_side sel m = Some side
                           /\ In p (players_of side)
                           /\ k = Js.toString (personId p)
                           /\ name = firstName p ++ " " ++ lastName p)
    /\ (forall l, In l (weeks r) ->
          exists m side, In m ms /\ selected_side sel m = Some side
                         /\ l = weekLabel (week m)).
Proof.
  unfold foldUsage.
  destruct (forEach_foldMatch_ok sel ms (mkAcc ∅ ∅ []) empty_acc_wf) as (a & E & _).
  rewrite E. eexists. split; [reflexivity|]. simpl.
  destruct (forEach_foldMatch_origin sel ms _ a E) as (Hu & Hp & Hw). simpl in *.
  split; [|split].
  - intros k row lbl name Hr Hl.
    destruct (Hu k row lbl name Hr Hl) as [(row0 & H0 & _)|H]; [|exact H].
    rewrite lookup_empty in H0. discriminate.
  - intros k name Hk. destruct (Hp k name Hk) as [H|H]; [|exact H].
    rewrite lookup_empty in H. discriminate.
  - intros l Hl. apply in_map_iff in Hl as (x & <- & Hx).
    rewrite <- list_elem_of_In, sort_by_perm, list_elem_of_In in Hx.
    destruct (Hw x Hx) as [[]|(m & side & Hm & Hs & ->)]. eauto.
Qed.

(** ** The options derived from the loaded teams *)

Lemma StrSet_has_In x s : StrSet.has x s = true <-> In x s.
Proof.
  unfold StrSet.has. rewrite existsb_exists. split.
  - intros (y & Hy & E). apply String.eqb_eq in E. congruence.
  - intros H. exists x. split; [exact H|apply String.eqb_refl].
Qed.

Lemma StrSet_add_spec x s :
  NoDup s -> NoDup (StrSet.add x s) /\ forall y, In y (StrSet.add x s) <-> y = x \/ In y s.
Proof.
  intros Hnd. unfold StrSet.add. destruct (StrSet.has x s) eqn:E.
  - apply StrSet_has_In in E. split; [exact Hnd|]. intros y. split; [auto|].
    intros [->|H]; auto.
  - split.
    + apply NoDup_app. repeat split; [exact Hnd| |apply NoDup_singleton].
      intros y Hy Hin. apply list_elem_of_In in Hy, Hin. destruct Hin as [->|[]].
      apply StrSet_has_In in Hy. congruence.
    + intros y. rewrite in_app_iff. simpl. intuition.
Qed.

Lemma StrSet_fold_spec {A : Type} (f : A -> string) (l : list A) : forall acc,
  NoDup acc ->
  NoDup (fold_left (fun s a => StrSet.add (f a) s) l acc)
  /\ forall y, In y (fold_left (fun s a => StrSet.add (f a) s) l acc)
               <-> In y acc \/ exists a, In a l /\ f a = y.
Proof.
  induction l as [|a l IH]; intros acc Hnd; simpl.
  - split; [exact Hnd|]. intros y. split; [auto|]. intros [H|(a & [] & _)]. exact H.
  - destruct (StrSet_add_spec (f a) acc Hnd) as [Hnd1 Hin1].
    destruct (IH _ Hnd1) as [H1 H2]. split; [exact H1|]. intros y. rewrite H2, Hin1.
    split.
    + intros [[->|H]|(b & Hb & <-)]; eauto.
    + intros [H|(b & [<-|Hb] & <-)]; eauto.
Qed.

Lemma insert_str_perm x l : Permutation (insert_str x l) (x :: l).
Proof.
  induction l as [|y l IH]; simpl; [reflexivity|].
  destruct (String.ltb x y); [reflexivity|]. rewrite IH. apply perm_swap.
Qed.

Lemma sort_strings_perm_acc l : forall acc,
  Permutation (fold_left (fun acc x => insert_str x acc) l acc) (acc ++ l).
Proof.
  induction l as [|x l IH]; intros acc; simpl.
  - rewrite app_nil_r. reflexivity.
  - rewrite IH, insert_str_perm. apply Permutation_middle.
Qed.

Lemma sort_strings_perm l : Permutation (sort_strings l) l.
Proof. apply (sort_strings_perm_acc l []). Qed.

Lemma ltb_leb_trans x y z :
  String.ltb x y = true -> String.leb y z = true -> String.leb x z = true.
Proof.
  unfold String.ltb, String.leb. intros Hxy Hyz.
  destruct (String.compare x y) eqn:Exy; try discriminate.
  destruct (String.compare y z) eqn:Eyz; try discriminate.
  - apply String.compare_eq_iff in Eyz. subst z. rewrite Exy. reflexivity.
  - apply String_as_OT.cmp_lt in Exy, Eyz.
    pose proof (String_as_OT.lt_trans _ _ _ Exy Eyz) as H.
    apply String_as_OT.cmp_lt in H. unfold String_as_OT.cmp in H. rewrite H. reflexivity.
Qed.

Lemma not_ltb_leb x y : String.ltb x y = false -> String.leb y x = true.
Proof.
  unfold String.ltb, String.leb. rewrite (String.compare_antisym y x).
  destruct (String.compare x y); simpl; congruence.
Qed.

Lemma ltb_leb x y : String.ltb x y = true -> String.leb x y = true.
Proof. unfold String.ltb, String.leb. destruct (String.compare x y); congruence. Qed.

Lemma insert_str_sorted x l :
  StronglySorted str_le l -> StronglySorted str_le (insert_str x l).
Proof.
  induction 1 as [|y l Hs IH Hall]; simpl.
  - repeat constructor.
  - destruct (String.ltb x y) eqn:E.
    + constructor; [constructor; assumption|].
      constructor; [apply ltb_leb, E|]. eapply Forall_impl; [exact Hall|].
      intros z Hz. eapply ltb_leb_trans; eauto.
    + constructor; [exact IH|].
      eapply Permutation_Forall; [symmetry; apply insert_str_perm|].
      constructor; [apply not_ltb_leb, E|exact Hall].
Qed.

Lemma sort_strings_sorted_acc l : forall acc,
  StronglySorted str_le acc ->
  StronglySorted str_le (fold_left (fun acc x => insert_str x acc) l acc).
Proof.
  induction l as [|x l IH]; intros acc Hs; simpl; [exact Hs|].
  apply IH, insert_str_sorted, Hs.
Qed.

Lemma sorted_strict_str l :
  StronglySorted str_le l -> NoDup l ->
  StronglySorted (fun a b => String.ltb a b = true) l.
Proof.
  induction 1 as [|x l Hs IH Hall]; intros Hnd; [constructor|].
  apply NoDup_cons in Hnd as [Hx Hnd]. constructor; [auto|].
  apply Forall_forall. intros y Hy.
  assert (Hle : str_le x y) by (eapply Forall_forall in Hall; eauto).
  unfold str_le, String.leb in Hle. unfold String.ltb.
  destruct (String.compare x y) eqn:E; try congruence.
  apply String.compare_eq_iff in E. subst y. contradiction.
Qed.

Lemma sort_strings_strict l :
  NoDup l -> StronglySorted (fun a b => String.ltb a b = true) (sort_strings l).
Proof.
  intros Hnd. apply sorted_strict_str.
  - apply sort_strings_sorted_acc. constructor.
  - rewrite sort_strings_perm. exact Hnd.
Qed.

Lemma genreOptions_In allTeams g :
  In g (genreOptions allTeams) <-> exists t, In t allTeams /\ genre t = g.
Proof.
  destruct (StrSet_fold_spec genre allTeams [] (NoDup_nil_2)) as [_ Hg2].
  unfold genreOptions, genreSet.
  rewrite <- list_elem_of_In, sort_strings_perm, list_elem_of_In, Hg2. simpl. tauto.
Qed.

(** X16. The genre and age-class choices are strictly ascending by code
    units, hence without repetition, and are exactly the genres and the
    age classes of the loaded teams. *)
Theorem genre_age_options (allTeams : list Team) :
  StronglySorted (fun a b => String.ltb a b = true) (genreOptions allTeams)
  /\ (forall g, In g (genreOptions allTeams) <-> exists t, In t allTeams /\ genre t = g)
  /\ StronglySorted (fun a b => String.ltb a b = true) (ageOptions allTeams)
  /\ (forall g, In g (ageOptions allTeams) <-> exists t, In t allTeams /\ ageCategory t = g).
Proof.
  destruct (StrSet_fold_spec genre allTeams [] (NoDup_nil_2)) as [Hg1 Hg2].
  destruct (StrSet_fold_spec ageCategory allTeams [] (NoDup_nil_2)) as [Ha1 Ha2].
  unfold genreOptions, ageOptions, genreSet, ageSet.
  split; [apply sort_strings_strict, Hg1|]. split.
  - apply genreOptions_In.
  - split; [apply sort_strings_strict, Ha1|].
    intros g. rewrite <- list_elem_of_In, sort_strings_perm, list_elem_of_In, Ha2.
    simpl. tauto.
Qed.

(** X17. Filtering by a genre that is offered, with no age filter, never
    yields an empty team list: it keeps exactly the teams of that genre
    (all of them for the empty name). *)
Theorem offered_genre_has_teams (st : State) (g : string) :
  In g (genreOptions (allTeams st)) ->
  genreFilter st = g -> ageFilter st = "" ->
  filteredTeams st <> []
  /\ forall t, In t (filteredTeams st) <-> In t (allTeams st) /\ (g = "" \/ genre t = g).
Proof.
  intros Hg Hf Ha.
  assert (Hchar : forall t, In t (filteredTeams st)
                            <-> In t (allTeams st) /\ (g = "" \/ genre t = g)).
  { intros t. unfold filteredTeams, team_matches. rewrite filter_In, Hf, Ha. simpl.
    rewrite andb_true_r, orb_true_iff, negb_true_iff.
    unfold Js.str_eqb. rewrite bool_decide_eq_true.
    destruct g; simpl; intuition congruence. }
  split; [|exact Hchar].
  apply genreOptions_In in Hg as (t & Ht & Hgt).
  intros Hnil. assert (Hin : In t (filteredTeams st)) by (apply Hchar; auto).
  rewrite Hnil in Hin. destruct Hin.
Qed.

Section MapFacts2.
Context {V : Type}.
Implicit Types (m : list (Z * V)).

Lemma has_get m k : JsMap.has k m = true <-> is_Some (JsMap.get k m).
Proof.
  unfold JsMap.has. induction m as [|[k0 v0] m IH]; simpl.
  - split; [discriminate|]. intros [? ?]. discriminate.
  - destruct (Z.eqb k k0); simpl; [split; eauto|exact IH].
Qed.

Lemma In_get m k v : NoDup (JsMap.keys m) -> In (k, v) m -> JsMap.get k m = Some v.
Proof.
  unfold JsMap.keys. induction m as [|[k0 v0] m IH]; simpl; [intros _ []|].
  intros Hnd. apply NoDup_cons in Hnd as [Hk0 Hnd]. intros [[= -> ->]|Hin].
  - rewrite Z.eqb_refl. reflexivity.
  - destruct (Z.eqb k k0) eqn:E; [|auto].
    apply Z.eqb_eq in E. subst k0. exfalso. apply Hk0.
    apply list_elem_of_In. apply (in_map fst m (k, v)), Hin.
Qed.
End MapFacts2.

Lemma compMap_flat allTeams : forall m,
  fold_left (fun m team => fold_left compMap_step (competitions team) m) allTeams m
  = fold_left compMap_step (flat_map competitions allTeams) m.
Proof.
  induction allTeams as [|t ts IH]; intros m; simpl; [reflexivity|].
  rewrite IH, fold_left_app. reflexivity.
Qed.

Lemma compMap_step_fold cs : forall m id,
  NoDup (JsMap.keys m) ->
  NoDup (JsMap.keys (fold_left compMap_step cs m))
  /\ JsMap.get id (fold_left compMap_step cs m)
     = match JsMap.get id m with
       | Some v => Some v
       | None => comp_name <$> List.find (fun c => Z.eqb (comp_id c) id) cs
       end.
Proof.
  induction cs as [|c cs IH]; intros m id Hnd; simpl.
  - split; [exact Hnd|]. destruct (JsMap.get id m); reflexivity.
  - assert (Hnd1 : NoDup (JsMap.keys (compMap_step m c))).
    { unfold compMap_step. destruct (negb _); [apply NoDup_keys_set|]; exact Hnd. }
    destruct (IH (compMap_step m c) id Hnd1) as [H1 H2]. split; [exact H1|].
    rewrite H2. unfold compMap_step.
    destruct (JsMap.has (comp_id c) m) eqn:Eh; simpl.
    + destruct (JsMap.get id m) eqn:Eg; [reflexivity|].
      destruct (Z.eqb (comp_id c) id) eqn:E; [|reflexivity].
      apply Z.eqb_eq in E. subst id. apply has_get in Eh as [v Hv]. congruence.
    + destruct (Z.eqb (comp_id c) id) eqn:E.
      * apply Z.eqb_eq in E. subst id. rewrite get_set_eq.
        assert (JsMap.get (comp_id c) m = None) as ->; [|reflexivity].
        destruct (JsMap.get (comp_id c) m) eqn:Eg; [|reflexivity].
        assert (JsMap.has (comp_id c) m = true) by (apply has_get; eauto). congruence.
      * rewrite get_set_ne by (apply Z.eqb_neq in E; congruence).
        destruct (JsMap.get id m); reflexivity.
Qed.

Lemma find_app_first {A : Type} (f : A -> bool) (l1 l2 : list A) :
  List.find f (l1 ++ l2)
  = match List.find f l1 with Some x => Some x | None => List.find f l2 end.
Proof.
  induction l1 as [|a l1 IH]; simpl; [reflexivity|]. destruct (f a); auto.
Qed.

Lemma set_fold_last cs : forall (m : list (Z * string)) id,
  NoDup (JsMap.keys m) ->
  NoDup (JsMap.keys (fold_left (fun m c => JsMap.set (comp_id c) (comp_name c) m) cs m))
  /\ JsMap.get id (fold_left (fun m c => JsMap.set (comp_id c) (comp_name c) m) cs m)
     = match List.find (fun c => Z.eqb (comp_id c) id) (rev cs) with
       | Some c => Some (comp_name c)
       | None => JsMap.get id m
       end.
Proof.
  induction cs as [|c cs IH]; intros m id Hnd; simpl.
  - auto.
  - destruct (IH (JsMap.set (comp_id c) (comp_name c) m) id (NoDup_keys_set _ _ _ Hnd))
      as [H1 H2].
    split; [exact H1|]. rewrite H2, find_app_first.
    destruct (List.find _ (rev cs)); [reflexivity|]. simpl.
    destruct (Z.eqb (comp_id c) id) eqn:E.
    + apply Z.eqb_eq in E. subst id. apply get_set_eq.
    + apply get_set_ne. apply Z.eqb_neq in E. congruence.
Qed.

Lemma In_competitions_of_map m c :
  NoDup (JsMap.keys m) ->
  In c (competitions_of_map m) <-> JsMap.get (comp_id c) m = Some (comp_name c).
Proof.
  intros Hnd. unfold competitions_of_map. rewrite in_map_iff. split.
  - intros ([k v] & <- & Hin). simpl. apply In_get; assumption.
  - intros H. apply get_In in H. exists (comp_id c, comp_name c). split; [|exact H].
    destruct c; reflexivity.
Qed.

Section OptionsFacts.
Variable sortByName : list Competition -> list Competition.
Hypothesis sortByName_perm : forall l, Permutation (sortByName l) l.

(** X18. The competition choices have one entry per competition id of
    the loaded teams, under the name of the first competition carrying
    that id, whatever order the collation puts them in. *)
Theorem competitionOptions_first_seen (allTeams : list Team) :
  NoDup (map comp_id (competitionOptions sortByName allTeams))
  /\ forall c, In c (competitionOptions sortByName allTeams)
               <-> comp_name <$> List.find (fun c' => Z.eqb (comp_id c') (comp_id c))
                                   (flat_map competitions allTeams)
                   = Some (comp_name c).
Proof.
  unfold competitionOptions, compMap. rewrite compMap_flat.
  destruct (compMap_step_fold (flat_map competitions allTeams) [] 0 (NoDup_nil_2)) as [Hnd _].
  split.
  - rewrite sortByName_perm. unfold competitions_of_map. rewrite map_map. exact Hnd.
  - intros c. rewrite <- list_elem_of_In, sortByName_perm, list_elem_of_In.
    rewrite In_competitions_of_map by exact Hnd.
    rewrite (proj2 (compMap_step_fold (flat_map competitions allTeams) [] (comp_id c)
                      (NoDup_nil_2))). simpl. tauto.
Qed.

(** X19. With no team ticked every competition is offered; otherwise a
    competition is offered as soon as one ticked team plays in it, even
    when another ticked team does not, every offered competition is one
    of a ticked team, and no id is offered twice. *)
Theorem selectedTeamsCompetitions_union (st : State) :
  (selectedTeamIds st = [] ->
   selectedTeamsCompetitions sortByName st = competitionOptions sortByName (allTeams st))
  /\ (selectedTeamIds st <> [] ->
      (forall t c, In t (allTeams st) ->
         JsSet.has (team_id t) (selectedTeamIds st) = true ->
         In c (competitions t) ->
         In (comp_id c) (map comp_id (selectedTeamsCompetitions sortByName st)))
      /\ (forall c, In c (selectedTeamsCompetitions sortByName st) ->
            exists t c', In t (allTeams st)
                         /\ JsSet.has (team_id t) (selectedTeamIds st) = true
                         /\ In c' (competitions t)
                         /\ comp_id c' = comp_id c /\ comp_name c' = comp_name c)
      /\ NoDup (map comp_id (selectedTeamsCompetitions sortByName st))).
Proof.
  unfold selectedTeamsCompetitions. split.
  - intros ->. reflexivity.
  - intros Hne.
    assert (Hsz : Z.eqb (JsSet.size (selectedTeamIds st)) 0 = false).
    { apply Z.eqb_neq. unfold JsSet.size. destruct (selectedTeamIds st); [congruence|].
      simpl. lia. }
    rewrite Hsz. unfold commonCompetitions.
    set (cs := flat_map competitions
                 (List.filter (fun t => JsSet.has (team_id t) (selectedTeamIds st))
                    (allTeams st))).
    assert (Hcs : forall c, In c cs <-> exists t, In t (allTeams st)
                     /\ JsSet.has (team_id t) (selectedTeamIds st) = true
                     /\ In c (competitions t)).
    { intros c. subst cs. rewrite in_flat_map. split.
      - intros (t & Ht & Hc). apply filter_In in Ht as [Ht Hs]. eauto.
      - intros (t & Ht & Hs & Hc). exists t. rewrite filter_In. auto. }
    pose proof (fun id => set_fold_last cs [] id (NoDup_nil_2)) as Hfold.
    assert (Hnd := proj1 (Hfold 0)).
    assert (Hmem : forall c, In c (sortByName (competitions_of_map
                      (fold_left (fun m c => JsMap.set (comp_id c) (comp_name c) m) cs [])))
                    <-> exists c', List.find (fun c' => Z.eqb (comp_id c') (comp_id c)) (rev cs)
                                   = Some c' /\ comp_name c' = comp_name c).
    { intros c. rewrite <- list_elem_of_In, sortByName_perm, list_elem_of_In.
      rewrite In_competitions_of_map by exact Hnd. rewrite (proj2 (Hfold (comp_id c))).
      destruct (List.find _ (rev cs)) as [c'|]; simpl.
      - split; [intros [= H]; eauto|]. intros (c'' & [= <-] & H). congruence.
      - split; [discriminate|]. intros (c'' & H & _). discriminate. }
    split; [|split].
    + intros t c Ht Hs Hc.
      assert (Hin : In c cs) by (apply Hcs; eauto).
      destruct (List.find (fun c' => Z.eqb (comp_id c') (comp_id c)) (rev cs)) as [c'|] eqn:Ef.
      * apply in_map_iff. exists (mkCompetition (comp_id c) (comp_name c')).
        split; [reflexivity|]. apply Hmem. exists c'. auto.
      * exfalso. eapply find_none in Ef; [|apply in_rev; rewrite rev_involutive; exact Hin].
        simpl in Ef. rewrite Z.eqb_refl in Ef. discriminate.
    + intros c Hc. apply Hmem in Hc as (c' & Hf & Hn). apply find_some in Hf as [Hin Hid].
      apply in_rev in Hin. apply Hcs in Hin as (t & Ht & Hs & Hc').
      apply Z.eqb_eq in Hid. exists t, c'. auto.
    + rewrite sortByName_perm. unfold competitions_of_map. rewrite map_map. exact Hnd.
Qed.
End OptionsFacts.

(** ** [App.tsx]: login and session timer *)

Lemma In_session_timers s t :
  In t (App.session_timers s) <-> In t (App.timers s) /\ App.task t = App.SessionExpiry.
Proof.
  unfold App.session_timers. rewrite filter_In. destruct (App.task t); intuition congruence.
Qed.

Lemma In_clearTimeout id s t :
  In t (App.timers (App.clearTimeout id s)) <-> In t (App.timers s) /\ App.timer_id t <> id.
Proof.
  unfold App.clearTimeout. simpl. rewrite filter_In, negb_true_iff, Z.eqb_neq. tauto.
Qed.

Lemma filter_none {A : Type} (f : A -> bool) (l : list A) :
  (forall x, In x l -> f x = false) -> List.filter f l = [].
Proof.
  induction l as [|a l IH]; simpl; intros H; [reflexivity|].
  rewrite (H a) by auto. apply IH. auto.
Qed.

Lemma filter_all {A : Type} (f : A -> bool) (l : list A) :
  (forall x, In x l -> f x = true) -> List.filter f l = l.
Proof.
  induction l as [|a l IH]; simpl; intros H; [reflexivity|].
  rewrite (H a) by auto. f_equal. apply IH. auto.
Qed.

Lemma NoDup_map_filter {A B : Type} (g : A -> B) (f : A -> bool) (l : list A) :
  NoDup (map g l) -> NoDup (map g (List.filter f l)).
Proof.
  induction l as [|a l IH]; simpl; [auto|]. intros Hnd.
  apply NoDup_cons in Hnd as [Ha Hnd]. destruct (f a); simpl; [|auto].
  constructor; [|auto]. rewrite list_elem_of_In, in_map_iff in *.
  intros (x & Hx & Hin). apply Ha. exists x. apply filter_In in Hin. tauto.
Qed.

Lemma clearSessionTimeout_spec s :
  App.session_inv s ->
  let s' := App.clearSessionTimeout s in
  App.session_inv s'
  /\ (forall t, In t (App.timers s') <-> In t (App.timers s) /\ App.task t <> App.SessionExpiry)
  /\ App.token s' = App.token s /\ App.authToken s' = App.authToken s
  /\ App.loading s' = App.loading s /\ App.error s' = App.error s
  /\ App.sessionTimeoutRef s' = App.sessionTimeoutRef s
  /\ App.nextTimerId s' = App.nextTimerId s /\ App.alerts s' = App.alerts s.
Proof.
  intros Hinv. pose proof Hinv as (Hpos & Hids & Hnd & Hlt & Href).
  unfold App.clearSessionTimeout.
  assert (Hkeep : (forall t, In t (App.timers s) -> App.task t <> App.SessionExpiry) ->
            forall t, In t (App.timers s)
                      <-> In t (App.timers s) /\ App.task t <> App.SessionExpiry).
  { intros H t. split; [auto|tauto]. }
  destruct (App.sessionTimeoutRef s) as [id|] eqn:Er.
  - destruct (Js.truthy_num id) eqn:Et.
    + assert (Hmem : forall t, In t (App.timers (App.clearTimeout id s))
                       <-> In t (App.timers s) /\ App.task t <> App.SessionExpiry).
      { intros t. rewrite In_clearTimeout. split.
        - intros [Ht Hne]. split; [exact Ht|]. intros E. apply (Href t Ht) in E. congruence.
        - intros [Ht Hne]. split; [exact Ht|]. intros E. apply Hne, (Href t Ht). congruence. }
      split; [|split; [exact Hmem|simpl; rewrite Er; tauto]].
      split; [exact Hpos|]. split; [|split; [|split]].
      * intros t Ht. apply Hmem in Ht as [Ht _]. simpl. auto.
      * simpl. apply NoDup_map_filter, Hnd.
      * simpl. rewrite Er. intros id' [= <-]. apply Hlt. reflexivity.
      * intros t Ht. apply Hmem in Ht as [Ht Hne]. simpl. rewrite Er.
        split; [contradiction|]. intros E. exfalso. apply Hne, (Href t Ht), E.
    + split; [exact Hinv|]. split; [|rewrite Er; tauto]. apply Hkeep.
      intros t Ht E. apply (Href t Ht) in E. injection E as ->.
      unfold Js.truthy_num in Et. apply negb_false_iff, Z.eqb_eq in Et.
      specialize (Hids t Ht). lia.
  - split; [exact Hinv|]. split; [|rewrite Er; tauto]. apply Hkeep.
    intros t Ht E. apply (Href t Ht) in E. discriminate.
Qed.

(** Scheduling a timer under a fresh handle. *)
Lemma setTimeout_spec task delay now s :
  let r := App.setTimeout task delay now s in
  fst r = App.nextTimerId s
  /\ App.timers (snd r) = (App.timers s ++ [App.mkTimer (App.nextTimerId s) (now + delay) task])%list
  /\ App.nextTimerId (snd r) = App.nextTimerId s + 1
  /\ App.token (snd r) = App.token s /\ App.authToken (snd r) = App.authToken s
  /\ App.loading (snd r) = App.loading s /\ App.error (snd r) = App.error s
  /\ App.sessionTimeoutRef (snd r) = App.sessionTimeoutRef s
  /\ App.alerts (snd r) = App.alerts s.
Proof. simpl. tauto. Qed.

Lemma NoDup_ids_snoc (l : list App.Timer) t n :
  NoDup (map App.timer_id l) ->
  (forall x, In x l -> 0 < App.timer_id x < n) -> App.timer_id t = n ->
  NoDup (map App.timer_id (l ++ [t])).
Proof.
  intros Hnd Hids Ht. rewrite map_app. apply NoDup_app. split; [exact Hnd|]. split.
  - intros x Hx Hin. simpl in Hin. apply list_elem_of_In in Hx, Hin.
    destruct Hin as [<-|[]]. apply in_map_iff in Hx as (y & Hy & Hin).
    specialize (Hids y Hin). lia.
  - simpl. apply NoDup_singleton.
Qed.

Lemma resetSessionTimeout_spec (now : Z) (s : App.AppState) :
  App.session_inv s ->
  let s' := App.resetSessionTimeout now s in
  App.session_inv s'
  /\ App.session_timers s'
     = [App.mkTimer (App.nextTimerId s) (now + 1800000) App.SessionExpiry]
  /\ App.sessionTimeoutRef s' = Some (App.nextTimerId s)
  /\ (forall t, App.task t <> App.SessionExpiry ->
        (In t (App.timers s') <-> In t (App.timers s)))
  /\ App.token s' = App.token s /\ App.authToken s' = App.authToken s
  /\ App.alerts s' = App.alerts s.
Proof.
  intros Hinv s'. subst s'.
  destruct (clearSessionTimeout_spec s Hinv)
    as (Hinv1 & Hmem & Htok & Hauth & Hload & Herr & Href1 & Hnext & Hal).
  destruct Hinv1 as (Hpos1 & Hids1 & Hnd1 & Hlt1 & Hs1).
  unfold App.resetSessionTimeout. cbn [App.setTimeout].
  set (s1 := App.clearSessionTimeout s) in *.
  cbn [App.token App.authToken App.alerts App.sessionTimeoutRef App.timers App.nextTimerId
       App.loading App.error].
  rewrite Hnext in *.
  assert (Hses : List.filter
                   (fun t => match App.task t with App.SessionExpiry => true | _ => false end)
                   (App.timers s1) = []).
  { apply filter_none. intros t Ht. apply Hmem in Ht as [_ Hne].
    destruct (App.task t); [congruence|reflexivity]. }
  split; [|split; [|split; [reflexivity|split; [|auto]]]].
  - split; [simpl; lia|]. split; [|split; [|split]]; simpl.
    + intros t Ht. apply in_app_iff in Ht as [Ht|[<-|[]]]; simpl.
      * specialize (Hids1 t Ht). lia.
      * lia.
    + apply NoDup_ids_snoc with (n := App.nextTimerId s); auto.
    + intros id [= <-]. lia.
    + intros t Ht. apply in_app_iff in Ht as [Ht|[<-|[]]]; simpl.
      * split.
        -- intros E. apply Hmem in Ht as [_ Hne]. contradiction.
        -- intros [= E]. specialize (Hids1 t Ht). lia.
      * tauto.
  - unfold App.session_timers. simpl. rewrite List.filter_app, Hses. reflexivity.
  - intros t Hne. simpl. rewrite in_app_iff, Hmem. simpl. split.
    + intros [[H _]|[<-|[]]]; [exact H|]. simpl in Hne. contradiction.
    + intros H. left. auto.
Qed.

(** X20. After an activity signal exactly one session timer is pending,
    due 30 minutes after the signal, and it is the one the ref holds: the
    timer of the previous signal is cancelled; the other timers, the token
    and the stored credential are untouched. *)
Theorem resetSessionTimeout_single (now : Z) (s : App.AppState) :
  App.session_inv s ->
  let s' := App.resetSessionTimeout now s in
  App.session_inv s'
  /\ App.session_timers s'
     = [App.mkTimer (App.nextTimerId s) (now + 1800000) App.SessionExpiry]
  /\ App.sessionTimeoutRef s' = Some (App.nextTimerId s)
  /\ (forall t, App.task t <> App.SessionExpiry ->
        (In t (App.timers s') <-> In t (App.timers s)))
  /\ App.token s' = App.token s /\ App.authToken s' = App.authToken s
  /\ App.alerts s' = App.alerts s.
Proof. exact (resetSessionTimeout_spec now s). Qed.

Lemma handleLogout_spec s :
  App.session_inv s ->
  let s' := App.handleLogout s in
  App.session_inv s'
  /\ App.token s' = None /\ App.authToken s' = None
  /\ App.session_timers s' = []
  /\ (forall t, In t (App.timers s') <-> In t (App.timers s) /\ App.task t <> App.SessionExpiry)
  /\ App.alerts s' = App.alerts s /\ App.loading s' = App.loading s
  /\ App.error s' = App.error s.
Proof.
  intros Hinv. unfold App.handleLogout.
  set (s0 := App.mkApp None (App.loading s) (App.error s) (App.sessionTimeoutRef s) None
               (App.timers s) (App.nextTimerId s) (App.alerts s)).
  assert (Hinv0 : App.session_inv s0) by exact Hinv.
  destruct (clearSessionTimeout_spec s0 Hinv0)
    as (Hinv1 & Hmem & Htok & Hauth & Hload & Herr & Href1 & Hnext & Hal).
  cbv zeta. split; [exact Hinv1|]. split; [exact Htok|]. split; [exact Hauth|].
  split; [|split; [exact Hmem|auto]].
  unfold App.session_timers. apply filter_none. intros t Ht. apply Hmem in Ht as [_ Hne].
  destruct (App.task t); [congruence|reflexivity].
Qed.

(** X21. Logging out clears the token and the stored credential and
    cancels the pending session timer, so no expiry alert follows a
    logout; other timers stay. *)
Theorem handleLogout_clears (s : App.AppState) :
  App.session_inv s ->
  let s' := App.handleLogout s in
  App.session_inv s'
  /\ App.token s' = None /\ App.authToken s' = None
  /\ App.session_timers s' = []
  /\ (forall t, In t (App.timers s') <-> In t (App.timers s) /\ App.task t <> App.SessionExpiry)
  /\ App.alerts s' = App.alerts s.
Proof.
  intros Hinv. destruct (handleLogout_spec s Hinv) as (H1 & H2 & H3 & H4 & H5 & H6 & _).
  cbv zeta. repeat (split; [assumption|]). assumption.
Qed.

Lemma existsb_timer_In t (l : list App.Timer) :
  In t l -> existsb (fun t' => Z.eqb (App.timer_id t') (App.timer_id t)) l = true.
Proof.
  intros H. apply existsb_exists. exists t. split; [exact H|apply Z.eqb_refl].
Qed.

Lemma clearTimeout_inv id s :
  App.session_inv s -> App.session_inv (App.clearTimeout id s).
Proof.
  intros (Hpos & Hids & Hnd & Hlt & Href). split; [exact Hpos|]. split; [|split; [|split]].
  - intros t Ht. apply In_clearTimeout in Ht as [Ht _]. simpl. auto.
  - simpl. apply NoDup_map_filter, Hnd.
  - exact Hlt.
  - intros t Ht. apply In_clearTimeout in Ht as [Ht _]. simpl. auto.
Qed.

(** X22. The session timer does not fire before it is due; when it
    fires the token and the stored credential are cleared, no session
    timer is left pending and the user is told once. *)
Theorem session_expiry (t : App.Timer) (now : Z) (s : App.AppState) :
  App.session_inv s ->
  In t (App.session_timers s) ->
  (now < App.due t -> App.fire t now s = None)
  /\ (App.due t <= now ->
      exists s', App.fire t now s = Some s'
        /\ App.session_inv s'
        /\ App.token s' = None /\ App.authToken s' = None
        /\ App.session_timers s' = []
        /\ App.alerts s'
           = (App.alerts s
                ++ ["Your session has expired due to inactivity. Please log in again."])%list
        /\ (forall t', App.task t' <> App.SessionExpiry ->
              (In t' (App.timers s') <-> In t' (App.timers s)))).
Proof.
  intros Hinv Ht. apply In_session_timers in Ht as [Ht Htask].
  unfold App.fire. rewrite (existsb_timer_In t _ Ht). cbn [andb]. split.
  - intros H. apply Z.leb_gt in H. rewrite H. reflexivity.
  - intros H. apply Z.leb_le in H. rewrite H, Htask. cbn [App.run_task].
    eexists. split; [reflexivity|].
    pose proof (clearTimeout_inv (App.timer_id t) s Hinv) as Hinv1.
    destruct (handleLogout_spec _ Hinv1) as (Hi & Htok & Hauth & Hses & Hmem & Hal & _).
    unfold App.sessionExpired. cbv zeta.
    split; [exact Hi|]. split; [exact Htok|]. split; [exact Hauth|].
    split; [exact Hses|]. split; [simpl; rewrite Hal; reflexivity|].
    intros t' Hne. simpl. rewrite Hmem, In_clearTimeout. split; [tauto|].
    intros Hin. split; [split; [exact Hin|]|exact Hne].
    intros E. destruct Hinv as (_ & _ & Hnd & _ & Href).
    assert (App.task t' = App.SessionExpiry); [|contradiction].
    apply (Href t' Hin). rewrite E. apply (Href t Ht), Htask.
Qed.

(** X23. A login answers after 500 ms, not before: meanwhile [loading]
    is set and the error cleared. With a username and a password the
    token is [dummy-token-] followed by the time of the answer, and the
    same token is stored; with either one empty the token and the store
    are untouched and the error asks for both. *)
Theorem mocked_login (username password : string) (t0 now : Z) (s : App.AppState) :
  App.session_inv s ->
  let s1 := App.handleLogin username password t0 s in
  let t := App.mkTimer (App.nextTimerId s) (t0 + 500) (App.LoginReply username password) in
  App.session_inv s1
  /\ App.loading s1 = true /\ App.error s1 = None /\ App.token s1 = App.token s
  /\ App.timers s1 = (App.timers s ++ [t])%list
  /\ (now < t0 + 500 -> App.fire t now s1 = None)
  /\ (t0 + 500 <= now ->
      exists s2, App.fire t now s1 = Some s2
        /\ App.session_inv s2
        /\ App.loading s2 = false
        /\ App.timers s2 = App.timers s
        /\ (username <> "" /\ password <> "" ->
            App.token s2 = Some ("dummy-token-" ++ Js.toString now)
            /\ App.authToken s2 = App.token s2 /\ App.error s2 = None)
        /\ (username = "" \/ password = "" ->
            App.token s2 = App.token s /\ App.authToken s2 = App.authToken s
            /\ App.error s2 = Some "Please enter a username and password.")).
Proof.
  intros Hinv s1 t. pose proof Hinv as (Hpos & Hids & Hnd & Hlt & Href).
  assert (Hinv1 : App.session_inv s1).
  { subst s1. unfold App.handleLogin. simpl. split; [simpl; lia|].
    split; [|split; [|split]]; simpl.
    - intros x Hx. apply in_app_iff in Hx as [Hx|[<-|[]]]; simpl.
      + specialize (Hids x Hx). lia.
      + lia.
    - apply NoDup_ids_snoc with (n := App.nextTimerId s); auto.
    - intros id Hid. specialize (Hlt id Hid). lia.
    - intros x Hx. apply in_app_iff in Hx as [Hx|[<-|[]]]; simpl.
      + apply Href, Hx.
      + split; [discriminate|]. intros Hr. specialize (Hlt _ Hr). lia. }
  split; [exact Hinv1|]. split; [reflexivity|]. split; [reflexivity|]. split; [reflexivity|].
  split; [reflexivity|].
  assert (Hpending : existsb (fun t' => Z.eqb (App.timer_id t') (App.timer_id t))
                       (App.timers s1) = true).
  { apply existsb_timer_In. subst s1. simpl. apply in_app_iff. right. left. reflexivity. }
  unfold App.fire. rewrite Hpending. cbn [andb]. split.
  - intros H. apply Z.leb_gt in H. subst t. cbn [App.due]. rewrite H. reflexivity.
  - intros H. apply Z.leb_le in H. subst t. cbn [App.due App.task App.timer_id].
    rewrite H. cbn [App.run_task]. eexists. split; [reflexivity|].
    assert (Htimers : App.timers (App.clearTimeout (App.nextTimerId s) s1) = App.timers s).
    { subst s1. simpl. rewrite List.filter_app. simpl. rewrite Z.eqb_refl. simpl.
      rewrite app_nil_r. apply filter_all. intros x Hx.
      apply negb_true_iff, Z.eqb_neq. specialize (Hids x Hx). lia. }
    pose proof (clearTimeout_inv (App.nextTimerId s) s1 Hinv1) as Hinv2.
    unfold App.loginReply.
    destruct (Js.truthy_str username && Js.truthy_str password) eqn:Eb.
    + apply andb_true_iff in Eb as [Eu Ep].
      split; [exact Hinv2|]. split; [reflexivity|]. split; [exact Htimers|]. split.
      * intros _. simpl. auto.
      * intros [->| ->]; simpl in *; discriminate.
    + split; [exact Hinv2|]. split; [reflexivity|]. split; [exact Htimers|]. split.
      * intros [Hu Hp]. destruct username, password; simpl in Eb; congruence.
      * intros _. simpl. auto.
Qed.

(** X24. After the effect on the token a session timer is pending
    exactly when a non-empty token is set, and then it is due 30 minutes
    later; the token itself is not touched. *)
Theorem effect_token_arms (now : Z) (s : App.AppState) :
  App.session_inv s ->
  let s' := App.effect_token now s in
  App.session_inv s'
  /\ App.token s' = App.token s /\ App.authToken s' = App.authToken s
  /\ App.session_timers s'
     = match App.token s with
       | Some tok =>
           if Js.truthy_str tok
           then [App.mkTimer (App.nextTimerId s) (now + 1800000) App.SessionExpiry]
           else []
       | None => []
       end.
Proof.
  intros Hinv s'. subst s'. unfold App.effect_token.
  destruct (clearSessionTimeout_spec s Hinv)
    as (Hinv1 & Hmem & Htok & Hauth & Hload & Herr & Href1 & Hnext & Hal).
  cbv zeta.
  assert (Hnone : App.session_timers (App.clearSessionTimeout s) = []).
  { unfold App.session_timers. apply filter_none. intros t Ht. apply Hmem in Ht as [_ Hne].
    destruct (App.task t); [congruence|reflexivity]. }
  rewrite Htok. destruct (App.token s) as [tok|] eqn:Et.
  - destruct (Js.truthy_str tok).
    + destruct (resetSessionTimeout_spec now _ Hinv1) as (Hi & Hs & _ & _ & Ht' & Ha' & _).
      cbv zeta in *. rewrite Hnext in Hs. rewrite Ht', Ha', Htok, Hauth. auto.
    + auto.
  - auto.
Qed.

(** ** The further statements at sample inputs *)

Lemma fresh_entry_skips_fetch_witness :
  fetchMatchDetail env_down "t0k" 5 (sample_state, cached_world)
  = (Ok both_selected_match,
     (sample_state,
      mkWorld (db cached_world) [EvDbGet "match-details" (KNum 5)])).
Proof.
  refine (proj2 (fresh_entry_skips_fetch env_down "t0k" sample_state cached_world) 5
            (mkCacheItem (KNum 5) both_selected_match 500) eq_refl _ eq_refl).
  vm_compute. reflexivity.
Defined.

Lemma fresh_entry_skips_fetch_handlers_witness :
  allTeams (fst (snd (fetchTeams env_down "t0k" other_club (sample_state, cached_world))))
  = [sample_team].
Proof.
  rewrite (proj2 (fresh_entry_skips_fetch_handlers env_down "t0k" sample_state cached_world)
             other_club (mkCacheItem (KNum 2) [sample_team] 500) eq_refl);
    [reflexivity|vm_compute; reflexivity|reflexivity].
Defined.

Lemma fetchMatchDetail_twice_witness :
  fst ((fetchMatchDetail env_serving "t0k" 5
          ≫= fun _ => fetchMatchDetail env_serving "t0k" 5) (sample_state, fresh_world))
  = Ok both_selected_match.
Proof.
  rewrite (proj2 (fetchMatchDetail_twice env_serving "t0k" 5 both_selected_match
                    sample_state fresh_world eq_refl eq_refl
                    (ex_intro _ (mkResp true 200 (Ok both_selected_match))
                       (conj eq_refl (conj eq_refl eq_refl)))
                    eq_refl eq_refl eq_refl)).
  reflexivity.
Defined.

Lemma analysis_outcome_witness :
  guard_passes sample_state
  /\ fst (handleFetchPlayerUsage env_serving "t0k" (sample_state, fresh_world)) = Ok tt.
Proof.
  split; [exact sample_guard_passes|].
  exact (proj1 (analysis_outcome env_serving "t0k" sample_state fresh_world
                  sample_guard_passes)).
Defined.

Lemma validation_exact_witness :
  competitionId sample_state_placeholder = Some 0
  /\ handleFetchPlayerUsage env_serving "t0k" (sample_state_placeholder, fresh_world)
     = (Ok tt,
        (with_error (Some "Please select at least one team and a competition.")
           sample_state_placeholder,
         fresh_world)).
Proof.
  split; [reflexivity|].
  exact (proj1 (validation_exact env_serving "t0k" sample_state_placeholder fresh_world)
           (or_intror (or_intror eq_refl))).
Defined.

Lemma searchForClubs_outcome_witness :
  clubQuery sample_state_query <> ""
  /\ loading (fst (snd (searchForClubs env_down (sample_state_query, fresh_world))))
       !! "clubs" = Some false.
Proof.
  assert (Hq : clubQuery sample_state_query <> "") by discriminate.
  split; [exact Hq|].
  exact (proj1 (proj2 (proj2 (searchForClubs_outcome env_down sample_state_query fresh_world)
                         Hq))).
Defined.

Lemma stageC_match_ids_witness :
  fst (stageC env_serving "t0k" [11; 12] (Some 3) (sample_state, fresh_world)) = Ok [5]
  /\ NoDup [5].
Proof.
  assert (H : fst (stageC env_serving "t0k" [11; 12] (Some 3) (sample_state, fresh_world))
              = Ok [5]) by (vm_compute; reflexivity).
  split; [exact H|].
  exact (proj1 (stageC_match_ids env_serving "t0k" [11; 12] (Some 3)
                  (sample_state, fresh_world) [5] H)).
Defined.

Lemma sample_selection_NoDup : NoDup (selectedTeamIds sample_state).
Proof.
  simpl. repeat constructor; rewrite ?elem_of_cons, ?elem_of_nil; intuition discriminate.
Defined.

Lemma handleTeamSelection_toggles_witness :
  NoDup (selectedTeamIds sample_state)
  /\ JsSet.has 11 (selectedTeamIds (fst (snd (handleTeamSelection 11
                                                (sample_state, fresh_world)))))
     = false.
Proof.
  split; [exact sample_selection_NoDup|].
  exact (proj1 (proj2 (proj2 (handleTeamSelection_toggles 11 sample_state fresh_world
                                sample_selection_NoDup)))).
Defined.

Lemma offered_genre_has_teams_witness :
  In "Gutter" (genreOptions (allTeams sample_state_genre))
  /\ filteredTeams sample_state_genre <> [].
Proof.
  assert (H : In "Gutter" (genreOptions (allTeams sample_state_genre)))
    by (left; reflexivity).
  split; [exact H|].
  exact (proj1 (offered_genre_has_teams sample_state_genre "Gutter" H eq_refl eq_refl)).
Defined.

Lemma keep_order_perm : forall l, Permutation (keep_order l) l.
Proof. intros l. apply Permutation_refl. Defined.

Lemma competitionOptions_first_seen_witness :
  NoDup (map comp_id (competitionOptions keep_order [sample_team; sample_team])).
Proof.
  exact (proj1 (competitionOptions_first_seen keep_order keep_order_perm
                  [sample_team; sample_team])).
Defined.

Lemma selectedTeamsCompetitions_union_witness :
  selectedTeamIds sample_state_genre <> []
  /\ In 3 (map comp_id (selectedTeamsCompetitions keep_order sample_state_genre)).
Proof.
  assert (Hne : selectedTeamIds sample_state_genre <> []) by discriminate.
  split; [exact Hne|].
  exact (proj1 (proj2 (selectedTeamsCompetitions_union keep_order keep_order_perm
                         sample_state_genre) Hne)
           sample_team (mkCompetition 3 "Serie") (or_introl eq_refl) eq_refl
           (or_introl eq_refl)).
Defined.

Lemma initial_session_inv stored : App.session_inv (App.initial stored).
Proof.
  split; [reflexivity|]. split; [intros t []|]. split; [constructor|].
  split; [discriminate|intros t []].
Defined.

Lemma resetSessionTimeout_single_witness :
  App.session_timers (App.resetSessionTimeout 1000 (App.initial (Some "dummy-token-1")))
  = [App.mkTimer 1 1801000 App.SessionExpiry].
Proof.
  exact (proj1 (proj2 (resetSessionTimeout_single 1000 (App.initial (Some "dummy-token-1"))
                         (initial_session_inv _)))).
Defined.

Lemma handleLogout_clears_witness :
  App.token (App.handleLogout (App.initial (Some "dummy-token-1"))) = None.
Proof.
  exact (proj1 (proj2 (handleLogout_clears (App.initial (Some "dummy-token-1"))
                         (initial_session_inv _)))).
Defined.

Lemma armed_session_inv :
  App.session_inv (App.resetSessionTimeout 1000 (App.initial (Some "dummy-token-1"))).
Proof.
  exact (proj1 (resetSessionTimeout_spec 1000 (App.initial (Some "dummy-token-1"))
                  (initial_session_inv _))).
Defined.

Lemma session_expiry_witness :
  App.fire (App.mkTimer 1 1801000 App.SessionExpiry) 1800999
    (App.resetSessionTimeout 1000 (App.initial (Some "dummy-token-1")))
  = None.
Proof.
  refine (proj1 (session_expiry (App.mkTimer 1 1801000 App.SessionExpiry) 1800999
                   (App.resetSessionTimeout 1000 (App.initial (Some "dummy-token-1")))
                   armed_session_inv _) eq_refl).
  left. reflexivity.
Defined.

Lemma mocked_login_witness :
  App.loading (App.handleLogin "ola" "secret" 0 (App.initial None)) = true.
Proof.
  exact (proj1 (proj2 (mocked_login "ola" "secret" 0 500 (App.initial None)
                         (initial_session_inv _)))).
Defined.

Lemma effect_token_arms_witness :
  App.session_timers (App.effect_token 1000 (App.initial (Some "dummy-token-1")))
  = [App.mkTimer 1 1801000 App.SessionExpiry].
Proof.
  exact (proj2 (proj2 (proj2 (effect_token_arms 1000 (App.initial (Some "dummy-token-1"))
                                (initial_session_inv _))))).
Defined.
